(** * microecs: the entity store and the system filter of [ecs.hpp]

    A shallow embedding of the two classes of the header, [Entity] and
    [System<Components...>], and the properties of the store and of the
    filter that the design document states about them. *)

From Stdlib Require Import List String Bool NArith PArith Arith Lia Permutation.
Import ListNotations.
Open Scope string_scope.
Open Scope list_scope.

(** ** Component classes and their run-time type identities *)

(** The classes that pass [std::is_base_of<Component, T>]: the class
    [Component] itself and the classes derived from it, known by name. *)
Inductive ctype : Type :=
| Component
| Derived (name : string).

Definition ctype_eqb (a b : ctype) : bool :=
  match a, b with
  | Component, Component => true
  | Derived x, Derived y => String.eqb x y
  | _, _ => false
  end.

(** A [std::type_info] object.  The standard lets several such objects
    describe one type (one per loaded image, say), so an object is told
    apart from another by [ti_instance] and describes [ti_type]. *)
Record type_info : Type := mk_type_info {
  ti_instance : N;
  ti_type : ctype
}.

(** [const std::type_info*]; [None] is the null pointer. *)
Definition type_info_ptr : Type := option type_info.

(** [typeid(T)] as the program at hand evaluates it. *)
Definition typeid (T : ctype) : type_info :=
  {| ti_instance := 0; ti_type := T |}.

(** [type_info::operator==]: do both objects describe one type? *)
Definition type_info_eqb (a b : type_info) : bool :=
  ctype_eqb (ti_type a) (ti_type b).

(** [lhs == rhs] on pointers: the same object or both null. *)
Definition ptr_eqb (lhs rhs : type_info_ptr) : bool :=
  match lhs, rhs with
  | None, None => true
  | Some a, Some b =>
      N.eqb (ti_instance a) (ti_instance b) && ctype_eqb (ti_type a) (ti_type b)
  | _, _ => false
  end.

(** A pointer in a boolean context. *)
Definition non_null {A : Type} (p : option A) : bool :=
  match p with Some _ => true | None => false end.

(** [*lhs == *rhs], evaluated only behind the two null tests. *)
Definition referents_eqb (lhs rhs : type_info_ptr) : bool :=
  match lhs, rhs with
  | Some a, Some b => type_info_eqb a b
  | _, _ => false
  end.

(** [Entity::EqualReferents<std::type_info>::operator()]. *)
Definition EqualReferents (lhs rhs : type_info_ptr) : bool :=
  ptr_eqb lhs rhs || (non_null lhs && non_null rhs && referents_eqb lhs rhs).

(** [Entity::HashTypeInfoReferents::operator()]; [hash_code] stands for
    the implementation-defined [type_info::hash_code]. *)
Definition HashTypeInfoReferents (hash_code : type_info -> N)
    (ti : type_info_ptr) : N :=
  match ti with
  | None => 0%N
  | Some t => hash_code t
  end.

(** ** Component pointers *)

(** Where a component object lives. *)
Definition address : Type := positive.

(** A [T*] for the [T] named at the call site; [None] is [nullptr]. *)
Definition ptr : Type := option address.

(** A [Component*].  A non-null one was converted from a [T*], and the
    model remembers that [T]: it is what decides whether a later
    [static_cast<T*>] gives the pointer back. *)
Definition Component_ptr : Type := option (ctype * address).

Definition upcast (T : ctype) (p : ptr) : Component_ptr :=
  match p with
  | None => None
  | Some a => Some (T, a)
  end.

(** The outcome of a [static_cast] from [Component*] to [T*]. *)
Inductive restored : Type :=
| Restored (p : ptr)
| WrongType.

Definition static_cast (T : ctype) (c : Component_ptr) : restored :=
  match c with
  | None => Restored None
  | Some (U, a) => if ctype_eqb U T then Restored (Some a) else WrongType
  end.

(** [std::unique_ptr<Component, void( * )(Component* )>]: the held pointer
    and the deleter, which is the lambda of [MakeComponentPtr<T>] and so
    is determined by its [T]. *)
Record ComponentPtr : Type := mk_ComponentPtr {
  up_get : Component_ptr;
  up_deleter : ctype
}.

Definition MakeComponentPtr (T : ctype) (p : ptr) : ComponentPtr :=
  {| up_get := upcast T p; up_deleter := T |}.

(** ** The underlying map *)

(** [std::unordered_map<const type_info*, ComponentPtr, Hash, Equal>] as
    the list of its elements.  Keys are compared with [EqualReferents];
    the hash only places elements in buckets and, being equal on equal
    types, does not change what is found. *)
Module unordered_map.

Definition value_type : Type := (type_info_ptr * ComponentPtr)%type.
Definition t : Type := list value_type.

Definition empty : t := [].

(** [find]: the element whose key is equivalent to [k], if any. *)
Fixpoint find (k : type_info_ptr) (m : t) : option value_type :=
  match m with
  | [] => None
  | (k', v) :: rest =>
      if EqualReferents k' k then Some (k', v) else find k rest
  end.

(** [emplace]: a new element unless an equivalent key is there, in
    which case the map is left as it was (and the value is dropped). *)
Definition emplace (k : type_info_ptr) (v : ComponentPtr) (m : t) : t :=
  match find k m with
  | Some _ => m
  | None => m ++ [(k, v)]
  end.

(** [erase(key)]: every element with an equivalent key goes. *)
Fixpoint erase (k : type_info_ptr) (m : t) : t :=
  match m with
  | [] => []
  | (k', v) :: rest =>
      if EqualReferents k' k then erase k rest else (k', v) :: erase k rest
  end.

(** How many elements have a key equivalent to [k]. *)
Fixpoint count (k : type_info_ptr) (m : t) : nat :=
  match m with
  | [] => 0
  | (k', _) :: rest =>
      (if EqualReferents k' k then 1 else 0) + count k rest
  end.

End unordered_map.

(** ** Entity *)

Record Entity : Type := mk_Entity {
  componentMap : unordered_map.t
}.

(** A default-constructed entity. *)
Definition Entity_new : Entity := {| componentMap := unordered_map.empty |}.

(** [Component* get(const std::type_info* ti) const]. *)
Definition get (ti : type_info_ptr) (e : Entity) : Component_ptr :=
  match unordered_map.find ti (componentMap e) with
  | None => None
  | Some (_, second) => up_get second
  end.

(** [T* get<T>() const]. *)
Definition get_T (T : ctype) (e : Entity) : restored :=
  static_cast T (get (Some (typeid T)) e).

(** [emplace<T>(args...)]; [p] is the object that [new T(args...)] made. *)
Definition emplace (T : ctype) (p : address) (e : Entity) : Entity :=
  let component := MakeComponentPtr T (Some p) in
  {| componentMap :=
       unordered_map.emplace (Some (typeid T)) component (componentMap e) |}.

(** [insert<T>(T* c)].  The second [static_assert] refuses [Component]
    itself, so the type is given by the name of a derived class. *)
Definition insert (name : string) (c : ptr) (e : Entity) : Entity :=
  let T := Derived name in
  {| componentMap :=
       unordered_map.emplace (Some (typeid T)) (MakeComponentPtr T c)
         (componentMap e) |}.

(** [void erase(const std::type_info* ti)]. *)
Definition erase (ti : type_info_ptr) (e : Entity) : Entity :=
  {| componentMap := unordered_map.erase ti (componentMap e) |}.

(** [void erase<T>()]. *)
Definition erase_T (T : ctype) (e : Entity) : Entity :=
  erase (Some (typeid T)) e.

(** [bool contains(const std::type_info* ti) const]. *)
Definition contains (ti : type_info_ptr) (e : Entity) : bool :=
  non_null (unordered_map.find ti (componentMap e)).

(** [bool contains<T>() const]. *)
Definition contains_T (T : ctype) (e : Entity) : bool :=
  contains (Some (typeid T)) e.

(** [RemoveUnique::operator()] and the range [begin(), end()). *)
Definition RemoveUnique (p : unordered_map.value_type)
  : type_info_ptr * Component_ptr :=
  (fst p, up_get (snd p)).

Definition iterate (e : Entity) : list (type_info_ptr * Component_ptr) :=
  map RemoveUnique (componentMap e).

(** The type a key stands for; [None] for the null pointer. *)
Definition key_type (k : type_info_ptr) : option ctype :=
  option_map ti_type k.

(** ** Sequences of store operations *)

(** The calls that change an entity.  [get], [contains] and the
    iterators are [const] and leave it as it is. *)
Inductive op : Type :=
| OpEmplace (T : ctype) (p : address)
| OpInsert (name : string) (c : ptr)
| OpEraseT (T : ctype)
| OpErase (ti : type_info_ptr).

Definition run_op (o : op) (e : Entity) : Entity :=
  match o with
  | OpEmplace T p => emplace T p e
  | OpInsert name c => insert name c e
  | OpEraseT T => erase_T T e
  | OpErase ti => erase ti e
  end.

Definition run_ops (ops : list op) (e : Entity) : Entity :=
  fold_left (fun acc o => run_op o acc) ops e.

(** The states an entity can be in: built by the default constructor and
    changed by the public operations only. *)
Inductive reachable : Entity -> Prop :=
| reachable_new : reachable Entity_new
| reachable_op : forall o e, reachable e -> reachable (run_op o e).

(** The pointer an operation hands to the store for type [T], if the
    operation is an insertion for [T]. *)
Definition inserted (T : ctype) (o : op) : option ptr :=
  match o with
  | OpEmplace U p => if ctype_eqb U T then Some (Some p) else None
  | OpInsert name c => if ctype_eqb (Derived name) T then Some c else None
  | _ => None
  end.

Definition inserts (T : ctype) (o : op) : bool := non_null (inserted T o).

(** Does the operation erase the entry of type [T]? *)
Definition erases (T : ctype) (o : op) : bool :=
  match o with
  | OpEraseT U => ctype_eqb U T
  | OpErase ti => EqualReferents (Some (typeid T)) ti
  | _ => false
  end.

(** ** System *)

(** [std::all_of] over a range. *)
Fixpoint all_of {A : Type} (range : list A) (pred : A -> bool) : bool :=
  match range with
  | [] => true
  | x :: rest => if pred x then all_of rest pred else false
  end.

Section SystemClass.

(** What a concrete system adds to the base class: its own data
    members and whatever else its [logic] reads and writes. *)
Variable D : Type.

(** A [System<Components...>] object.  [componentTypes] is a public,
    non-const data member, so it is part of the object's state. *)
Record System : Type := mk_System {
  componentTypes : list type_info_ptr;
  members : D
}.

(** [System() : componentTypes {&typeid(Components)...} {}]. *)
Definition System_ctor (Components : list ctype) (d : D) : System :=
  {| componentTypes := map (fun T => Some (typeid T)) Components;
     members := d |}.

(** The pure virtual [logic(Entity& e)] of the concrete system: it
    receives the entity by reference and runs as a member function, so
    it may change both the entity and the system object.  The other
    entities of a sequence are taken to be out of its reach. *)
Variable logic : Entity -> System -> Entity * System.

(** The concrete system's [logic] does not write [componentTypes]. *)
Definition keeps_types : Prop :=
  forall (x : Entity) (s : System),
    componentTypes (snd (logic x s)) = componentTypes s.

(** The state a call of [process] runs in: the system object, and the
    record of the calls of [logic] made so far (each with the entity as
    it was handed over).  The record is there to be reasoned about; the
    code does not read it. *)
Record world : Type := mk_world {
  this : System;
  invoked : list Entity
}.

Definition M (A : Type) : Type := world -> A * world.

Definition ret {A : Type} (a : A) : M A := fun w => (a, w).

Definition bind {A B : Type} (m : M A) (k : A -> M B) : M B :=
  fun w => let (a, w') := m w in k a w'.

Definition call_logic (e : Entity) : M Entity :=
  fun w =>
    let (e', s') := logic e (this w) in
    (e', {| this := s'; invoked := invoked w ++ [e] |}).

(** [void process(Entity& e)]; the result is the entity afterwards. *)
Definition process (e : Entity) : M Entity :=
  fun w =>
    if all_of (componentTypes (this w)) (fun type => contains type e)
    then call_logic e w
    else ret e w.

(** The outcome of the filter of [process] for an entity, under a
    given system object. *)
Definition passes (s : System) (e : Entity) : bool :=
  all_of (componentTypes s) (fun type => contains type e).

(** [void process(std::vector<Entity>& entities)]: the range-based
    [for] visits the elements from the first to the last. *)
Fixpoint process_vec (entities : list Entity) : M (list Entity) :=
  match entities with
  | [] => ret []
  | e :: rest =>
      bind (process e) (fun e' =>
      bind (process_vec rest) (fun rest' =>
      ret (e' :: rest')))
  end.

End SystemClass.

Arguments mk_System {D} _ _.
Arguments mk_world {D} _ _.
Arguments componentTypes {D} _.
Arguments members {D} _.
Arguments this {D} _.
Arguments invoked {D} _.
Arguments System_ctor {D} _ _.
Arguments ret {D A} _ _.
Arguments bind {D A B} _ _ _.
Arguments call_logic {D} _ _ _.
Arguments process {D} _ _ _.
Arguments process_vec {D} _ _ _.
Arguments passes {D} _ _.
Arguments keeps_types {D} _.

(** The type whose entry an operation can change: the [T] of a typed
    call, or whatever the given identity stands for. *)
Definition touched (o : op) : option ctype :=
  match o with
  | OpEmplace T _ => Some T
  | OpInsert name _ => Some (Derived name)
  | OpEraseT T => Some T
  | OpErase ti => key_type ti
  end.

(** The element stored for type [T], as [get<T>] and [contains<T>] look
    it up. *)
Definition entry (T : ctype) (e : Entity) : option unordered_map.value_type :=
  unordered_map.find (Some (typeid T)) (componentMap e).

(** ** The statements about operation sequences *)

(** Some insertion for [T] found no entry of [T] in its way (so it stored
    its pointer) and no later operation erased [T]. *)
Definition live_insertion (T : ctype) (ops : list op) : Prop :=
  exists pre o post,
    ops = pre ++ o :: post /\
    inserts T o = true /\
    contains_T T (run_ops pre Entity_new) = false /\
    forallb (fun o' => negb (erases T o')) post = true.

(** The same, for an insertion that handed over the pointer [c]. *)
Definition live_insertion_of (T : ctype) (c : ptr) (ops : list op) : Prop :=
  exists pre o post,
    ops = pre ++ o :: post /\
    inserted T o = Some c /\
    contains_T T (run_ops pre Entity_new) = false /\
    forallb (fun o' => negb (erases T o')) post = true.

(** Presence as the design document words it: after [ops], [contains<T>()]
    holds and [get<T>()] is not absent exactly when an insertion is live. *)
Definition presence_as_stated (T : ctype) (ops : list op) : Prop :=
  let e := run_ops ops Entity_new in
  (contains_T T e = true /\ exists a, get_T T e = Restored (Some a))
  <-> live_insertion T ops.

(** What the store keeps for well-formed use: every element sits under
    the identity of the type its pointer was made for. *)
Definition well_keyed (p : unordered_map.value_type) : Prop :=
  exists T c, p = (Some (typeid T), MakeComponentPtr T c).

(** The invariant of the store: well-keyed elements, and no identity
    with more than one element. *)
Definition store_inv (e : Entity) : Prop :=
  Forall well_keyed (componentMap e) /\
  forall k, unordered_map.count k (componentMap e) <= 1.

(** ** Two stores seen from outside *)

(** Every identity finds the same element in both.  The order in which
    the elements of an [unordered_map] are laid out is not part of this:
    an insertion may rehash. *)
Definition same_lookups (e e' : Entity) : Prop :=
  forall k, unordered_map.find k (componentMap e)
            = unordered_map.find k (componentMap e').

(** ** Ownership *)

(** One call of a deleter: the lambda of [MakeComponentPtr<T>] runs
    [delete static_cast<T*>(p)], so it deletes [deleted_object] as a
    [deleted_as]. *)
Record deletion : Type := mk_deletion {
  deleted_as : ctype;
  deleted_object : ctype * address
}.

(** [~unique_ptr()]: the deleter is called on the held pointer unless it
    is null. *)
Definition destroy (u : ComponentPtr) : list deletion :=
  match up_get u with
  | None => []
  | Some obj => [{| deleted_as := up_deleter u; deleted_object := obj |}]
  end.

(** The value that [unordered_map::emplace] does not keep: with an
    equivalent key in the map, the [unique_ptr] made for the call is
    destroyed while it still owns its pointer. *)
Definition emplace_rejected (k : type_info_ptr) (v : ComponentPtr)
    (m : unordered_map.t) : list ComponentPtr :=
  match unordered_map.find k m with
  | Some _ => [v]
  | None => []
  end.

(** The values of the elements that [unordered_map::erase(key)] removes
    and thereby destroys. *)
Definition erase_removed (k : type_info_ptr) (m : unordered_map.t)
  : list ComponentPtr :=
  map snd (filter (fun p => EqualReferents (fst p) k) m).

(** The deleter calls made while an operation runs on an entity. *)
Definition deletions (o : op) (e : Entity) : list deletion :=
  flat_map destroy
    match o with
    | OpEmplace T p =>
        emplace_rejected (Some (typeid T)) (MakeComponentPtr T (Some p))
          (componentMap e)
    | OpInsert name c =>
        emplace_rejected (Some (typeid (Derived name)))
          (MakeComponentPtr (Derived name) c) (componentMap e)
    | OpEraseT T => erase_removed (Some (typeid T)) (componentMap e)
    | OpErase ti => erase_removed ti (componentMap e)
    end.

(** The implicit [~Entity()]: the map goes and so do its elements. *)
Definition Entity_dtor (e : Entity) : list deletion :=
  flat_map destroy (map snd (componentMap e)).

(** The objects an entity holds through non-null pointers. *)
Definition owned (e : Entity) : list (ctype * address) :=
  flat_map (fun p => match up_get (snd p) with
                     | Some obj => [obj]
                     | None => []
                     end) (componentMap e).

(** The object an operation brings to the entity: the one [emplace<T>]
    allocates, or the one a non-null argument of [insert<T>] points to. *)
Definition handed (o : op) : list (ctype * address) :=
  match o with
  | OpEmplace T p => [(T, p)]
  | OpInsert name (Some a) => [(Derived name, a)]
  | _ => []
  end.

(** A [hash_code] as the standard wants it: equal on objects that
    compare equal. *)
Definition hash_respects_eq (hash_code : type_info -> N) : Prop :=
  forall a b, type_info_eqb a b = true -> hash_code a = hash_code b.

(** A hash of that kind, for the examples. *)
Definition name_hash (t : type_info) : N :=
  match ti_type t with
  | Component => 1
  | Derived name => N.of_nat (String.length name) + 2
  end.

(** ** A concrete system, for the examples below *)

Definition Position : ctype := Derived "Position".
Definition Velocity : ctype := Derived "Velocity".

(** A system over [Position] and [Velocity] that counts its calls and
    drops the velocity of the entity it is given. *)
Definition stop_logic (e : Entity) (s : System nat) : Entity * System nat :=
  (erase_T Velocity e,
   {| componentTypes := componentTypes s; members := S (members s) |}).

Definition stop_system : System nat := System_ctor [Position; Velocity] 0.

(** An entity with both components, and one with a position only. *)
Definition moving : Entity :=
  emplace Velocity 2%positive (emplace Position 1%positive Entity_new).
Definition resting : Entity := emplace Position 3%positive Entity_new.

(** ** Two more systems, and two statements about every system *)

(** A system whose [logic] empties its own list of required types. *)
Definition clearing_logic (e : Entity) (s : System nat) : Entity * System nat :=
  (e, {| componentTypes := []; members := members s |}).

(** A system that counts its calls and, from the second call on, drops
    the velocity of the entity it is given.  It leaves the required
    types alone. *)
Definition later_stop_logic (e : Entity) (s : System nat)
  : Entity * System nat :=
  (match members s with
   | O => e
   | S _ => erase_T Velocity e
   end,
   {| componentTypes := componentTypes s; members := S (members s) |}).

(** In a pass over the two entities [p; e]: the number of calls of
    [logic] made for [e], and what stands in the place of [e] afterwards. *)
Definition calls_for_second (D : Type)
    (logic : Entity -> System D -> Entity * System D)
    (p e : Entity) (w : world D) : nat :=
  List.length (invoked (snd (process_vec logic [p; e] w)))
  - List.length (invoked (snd (process logic p w))).

Definition second_result (D : Type)
    (logic : Entity -> System D -> Entity * System D)
    (p e : Entity) (w : world D) : option Entity :=
  nth_error (fst (process_vec logic [p; e] w)) 1.

(** Independence as the design document words it: whether the entity in
    front passed the filter or failed it changes neither whether nor how
    the next entity is processed. *)
Definition sequence_independence_as_stated (D : Type)
    (logic : Entity -> System D -> Entity * System D) : Prop :=
  forall (w : world D) (p p' e : Entity),
    passes (this w) p = true ->
    passes (this w) p' = false ->
    calls_for_second D logic p e w = calls_for_second D logic p' e w /\
    second_result D logic p e w = second_result D logic p' e w.

(** The required types as the design document words it: no [process]
    changes them. *)
Definition required_types_as_stated (D : Type)
    (logic : Entity -> System D -> Entity * System D) : Prop :=
  forall (e : Entity) (w : world D),
    componentTypes (this (snd (process logic e w))) = componentTypes (this w).

(** ** Keys *)

Lemma ctype_eqb_eq (a b : ctype) : ctype_eqb a b = true <-> a = b.
Proof.
  destruct a as [|x], b as [|y]; simpl; try (split; congruence).
  rewrite String.eqb_eq. split; congruence.
Qed.

Lemma ctype_eqb_refl (a : ctype) : ctype_eqb a a = true.
Proof. now apply ctype_eqb_eq. Qed.

(** Two keys are equivalent exactly when they stand for one type, or
    are both null. *)
Lemma EqualReferents_key_type (lhs rhs : type_info_ptr) :
  EqualReferents lhs rhs = true <-> key_type lhs = key_type rhs.
Proof.
  unfold EqualReferents, key_type.
  destruct lhs as [[i a]|], rhs as [[j b]|]; simpl;
    unfold type_info_eqb; simpl; try (split; congruence).
  rewrite orb_true_iff, andb_true_iff, N.eqb_eq, ctype_eqb_eq.
  split.
  - intros [[_ H]|H]; congruence.
  - intros H. right. congruence.
Qed.

Lemma EqualReferents_typeid (T U : ctype) :
  EqualReferents (Some (typeid T)) (Some (typeid U)) = ctype_eqb T U.
Proof.
  unfold EqualReferents. cbn. unfold type_info_eqb. cbn.
  now destruct (ctype_eqb T U).
Qed.

Lemma EqualReferents_sym (a b : type_info_ptr) :
  EqualReferents a b = EqualReferents b a.
Proof.
  destruct (EqualReferents a b) eqn:E, (EqualReferents b a) eqn:F; trivial.
  - apply EqualReferents_key_type in E.
    symmetry in E. apply EqualReferents_key_type in E. congruence.
  - apply EqualReferents_key_type in F.
    symmetry in F. apply EqualReferents_key_type in F. congruence.
Qed.

(** Equivalent keys cannot be told apart by a third one. *)
Lemma EqualReferents_congr (a b c : type_info_ptr) :
  EqualReferents a b = true -> EqualReferents c a = EqualReferents c b.
Proof.
  intros H. apply EqualReferents_key_type in H.
  destruct (EqualReferents c a) eqn:E, (EqualReferents c b) eqn:F; trivial.
  - apply EqualReferents_key_type in E.
    rewrite H in E. apply EqualReferents_key_type in E. congruence.
  - apply EqualReferents_key_type in F.
    rewrite <- H in F. apply EqualReferents_key_type in F. congruence.
Qed.

Lemma EqualReferents_false (lhs rhs : type_info_ptr) :
  EqualReferents lhs rhs = false <-> key_type lhs <> key_type rhs.
Proof.
  rewrite <- EqualReferents_key_type.
  destruct (EqualReferents lhs rhs); split; congruence.
Qed.

(** Decide every key comparison in sight and read the outcomes as
    (dis)equalities between the types the keys stand for. *)
Ltac key_cases :=
  repeat match goal with
  | |- context [EqualReferents ?a ?b] =>
      let E := fresh "E" in destruct (EqualReferents a b) eqn:E
  end;
  repeat match goal with
  | H : EqualReferents _ _ = true |- _ => apply EqualReferents_key_type in H
  | H : EqualReferents _ _ = false |- _ => apply EqualReferents_false in H
  end;
  try congruence.

(** ** The underlying map: what [find] sees after [emplace] and [erase] *)

Module unordered_map_facts.
Import unordered_map.

Lemma find_app (k : type_info_ptr) (m m' : t) :
  find k (m ++ m') =
  match find k m with Some x => Some x | None => find k m' end.
Proof.
  induction m as [|[k' v] m IH]; simpl; trivial.
  now destruct (EqualReferents k' k).
Qed.

Lemma find_congr (a b : type_info_ptr) (m : t) :
  EqualReferents a b = true -> find a m = find b m.
Proof.
  intros H. induction m as [|[k' v] m IH]; simpl; trivial.
  rewrite (EqualReferents_congr a b k' H), IH. reflexivity.
Qed.

Lemma find_key (k : type_info_ptr) (m : t) (p : value_type) :
  find k m = Some p -> In p m /\ EqualReferents (fst p) k = true.
Proof.
  induction m as [|[k' v] m IH]; simpl; try discriminate.
  destruct (EqualReferents k' k) eqn:E.
  - intros [= <-]. auto.
  - intros H. destruct (IH H). auto.
Qed.

Lemma find_emplace (k k' : type_info_ptr) (v : ComponentPtr) (m : t) :
  find k' (emplace k v m) =
  match find k' m with
  | Some x => Some x
  | None => if EqualReferents k k' then Some (k, v) else None
  end.
Proof.
  unfold emplace. destruct (find k m) eqn:F.
  - destruct (find k' m) eqn:F'; trivial.
    destruct (EqualReferents k k') eqn:E; trivial.
    rewrite (find_congr k k' m E) in F. congruence.
  - rewrite find_app. simpl. now destruct (find k' m).
Qed.

Lemma find_erase (k k' : type_info_ptr) (m : t) :
  find k' (erase k m) = if EqualReferents k k' then None else find k' m.
Proof.
  induction m as [|[k0 v] m IH]; simpl.
  - now destruct (EqualReferents k k').
  - destruct (EqualReferents k0 k) eqn:E0; simpl; rewrite IH; key_cases.
Qed.

Lemma erase_absent (k : type_info_ptr) (m : t) :
  find k m = None -> erase k m = m.
Proof.
  induction m as [|[k0 v] m IH]; simpl; trivial.
  destruct (EqualReferents k0 k); try discriminate.
  intros H. now rewrite IH.
Qed.

Lemma find_erase_same (k : type_info_ptr) (m : t) :
  find k (erase k m) = None.
Proof.
  rewrite find_erase.
  replace (EqualReferents k k) with true; trivial.
  symmetry. now apply EqualReferents_key_type.
Qed.

Lemma erase_erase (k : type_info_ptr) (m : t) :
  erase k (erase k m) = erase k m.
Proof. apply erase_absent, find_erase_same. Qed.

Lemma count_congr (a b : type_info_ptr) (m : t) :
  EqualReferents a b = true -> count a m = count b m.
Proof.
  intros H. induction m as [|[k' v] m IH]; simpl; trivial.
  now rewrite (EqualReferents_congr a b k' H), IH.
Qed.

Lemma count_app (k : type_info_ptr) (m m' : t) :
  count k (m ++ m') = count k m + count k m'.
Proof.
  induction m as [|[k' v] m IH]; simpl; trivial.
  rewrite IH. lia.
Qed.

Lemma find_none_count (k : type_info_ptr) (m : t) :
  find k m = None <-> count k m = 0.
Proof.
  induction m as [|[k' v] m IH]; simpl.
  - tauto.
  - destruct (EqualReferents k' k); simpl; [split; [discriminate|lia] | exact IH].
Qed.

Lemma count_emplace (k k' : type_info_ptr) (v : ComponentPtr) (m : t) :
  count k' m <= 1 -> count k' (emplace k v m) <= 1.
Proof.
  intros H. unfold emplace. destruct (find k m) eqn:F; trivial.
  rewrite count_app. simpl.
  destruct (EqualReferents k k') eqn:E; try lia.
  apply find_none_count in F. rewrite (count_congr k k' m E) in F. lia.
Qed.

Lemma count_erase (k k' : type_info_ptr) (m : t) :
  count k' (erase k m) <= count k' m.
Proof.
  induction m as [|[k0 v] m IH]; simpl; trivial.
  destruct (EqualReferents k0 k); simpl; lia.
Qed.

Lemma Forall_emplace (P : value_type -> Prop) k v (m : t) :
  P (k, v) -> Forall P m -> Forall P (emplace k v m).
Proof.
  intros Hp Hm. unfold emplace. destruct (find k m); trivial.
  apply Forall_app. auto.
Qed.

Lemma Forall_erase (P : value_type -> Prop) k (m : t) :
  Forall P m -> Forall P (erase k m).
Proof.
  induction 1 as [|[k0 v] m Hp Hm IH]; simpl; trivial.
  destruct (EqualReferents k0 k); auto.
Qed.

End unordered_map_facts.

(** ** The entity: one step of the store *)

Import unordered_map_facts.

Lemma contains_entry (T : ctype) (e : Entity) :
  contains_T T e = non_null (entry T e).
Proof. reflexivity. Qed.

Lemma get_T_entry (T : ctype) (e : Entity) :
  get_T T e =
  static_cast T match entry T e with
                | None => None
                | Some (_, second) => up_get second
                end.
Proof. reflexivity. Qed.

(** What one operation does to the entry of a type. *)
Lemma entry_step (T : ctype) (o : op) (e : Entity) :
  entry T (run_op o e) =
  match inserted T o with
  | Some c =>
      match entry T e with
      | Some x => Some x
      | None => Some (Some (typeid T), MakeComponentPtr T c)
      end
  | None => if erases T o then None else entry T e
  end.
Proof.
  unfold entry.
  destruct o as [U p|name c|U|ti];
    cbn [run_op inserted erases emplace insert erase erase_T componentMap].
  - rewrite find_emplace, EqualReferents_typeid.
    destruct (ctype_eqb U T) eqn:E.
    + apply ctype_eqb_eq in E. now subst.
    + now destruct (unordered_map.find _ _).
  - rewrite find_emplace, EqualReferents_typeid.
    destruct (ctype_eqb (Derived name) T) eqn:E.
    + apply ctype_eqb_eq in E. now subst.
    + now destruct (unordered_map.find _ _).
  - rewrite find_erase, EqualReferents_typeid. reflexivity.
  - rewrite find_erase, (EqualReferents_sym ti). reflexivity.
Qed.

(** An operation that leaves [U] alone leaves the entry of [U] alone. *)
Lemma entry_frame (U : ctype) (o : op) (e : Entity) :
  touched o <> Some U -> entry U (run_op o e) = entry U e.
Proof.
  intros H. rewrite entry_step.
  destruct o as [T p|name c|T|ti]; cbn [touched inserted erases] in *.
  - destruct (ctype_eqb T U) eqn:E.
    + apply ctype_eqb_eq in E. congruence.
    + reflexivity.
  - destruct (ctype_eqb (Derived name) U) eqn:E.
    + apply ctype_eqb_eq in E. congruence.
    + reflexivity.
  - destruct (ctype_eqb T U) eqn:E.
    + apply ctype_eqb_eq in E. congruence.
    + reflexivity.
  - destruct (EqualReferents (Some (typeid U)) ti) eqn:E; trivial.
    apply EqualReferents_key_type in E. simpl in E. congruence.
Qed.

Lemma inserted_not_erases (T : ctype) (o : op) (c : ptr) :
  inserted T o = Some c -> erases T o = false.
Proof. destruct o; simpl; trivial; discriminate. Qed.

(** ** Reachable entities *)

Lemma store_inv_new : store_inv Entity_new.
Proof. split; [constructor | intros k; simpl; lia]. Qed.

Lemma store_inv_step (o : op) (e : Entity) :
  store_inv e -> store_inv (run_op o e).
Proof.
  intros [Hk Hc]. destruct o as [T p|name c|T|ti]; simpl; split; simpl.
  - apply Forall_emplace; trivial. now exists T, (Some p).
  - intros k. now apply count_emplace.
  - apply Forall_emplace; trivial. now exists (Derived name), c.
  - intros k. now apply count_emplace.
  - now apply Forall_erase.
  - intros k. eapply Nat.le_trans; [apply count_erase | apply Hc].
  - now apply Forall_erase.
  - intros k. eapply Nat.le_trans; [apply count_erase | apply Hc].
Qed.

Lemma reachable_store_inv (e : Entity) : reachable e -> store_inv e.
Proof.
  induction 1 as [|o e _ IH]; [apply store_inv_new | now apply store_inv_step].
Qed.

Lemma reachable_run_ops (ops : list op) (e : Entity) :
  reachable e -> reachable (run_ops ops e).
Proof.
  revert e. induction ops as [|o ops IH]; simpl; intros e H; trivial.
  apply IH. now constructor.
Qed.

(** In a well-keyed store the element found for [T] was made for [T]. *)
Lemma well_keyed_entry (T : ctype) (e : Entity) (x : unordered_map.value_type) :
  Forall well_keyed (componentMap e) ->
  entry T e = Some x ->
  exists c, x = (Some (typeid T), MakeComponentPtr T c).
Proof.
  intros Hk Hx. apply find_key in Hx. destruct Hx as [Hin Heq].
  rewrite Forall_forall in Hk. destruct (Hk x Hin) as (U & c & ->).
  simpl in Heq. rewrite EqualReferents_typeid in Heq.
  apply ctype_eqb_eq in Heq. subst. now exists c.
Qed.

Lemma well_keyed_find_null (m : unordered_map.t) :
  Forall well_keyed m -> unordered_map.find None m = None.
Proof.
  induction 1 as [|x m (T & c & ->) _ IH]; simpl; trivial.
Qed.

Lemma static_cast_upcast (T : ctype) (c : ptr) :
  static_cast T (upcast T c) = Restored c.
Proof.
  destruct c as [a|]; simpl; trivial. now rewrite ctype_eqb_refl.
Qed.

(** An insertion for a type that is already there changes nothing. *)
Lemma insertion_on_present (T : ctype) (o : op) (c : ptr) (e : Entity) :
  inserted T o = Some c -> contains_T T e = true -> run_op o e = e.
Proof.
  intros Hi Hc. rewrite contains_entry in Hc. unfold entry in Hc.
  destruct e as [m]. cbn [componentMap] in Hc.
  destruct o as [U p|name c'|U|ti]; cbn [inserted] in Hi; try discriminate.
  - destruct (ctype_eqb U T) eqn:E; try discriminate.
    apply ctype_eqb_eq in E. subst U.
    unfold run_op, emplace, unordered_map.emplace. cbn [componentMap].
    destruct (unordered_map.find (Some (typeid T)) m);
      [reflexivity | discriminate Hc].
  - destruct (ctype_eqb (Derived name) T) eqn:E; try discriminate.
    apply ctype_eqb_eq in E. subst T.
    unfold run_op, insert, unordered_map.emplace. cbn [componentMap].
    destruct (unordered_map.find (Some (typeid (Derived name))) m);
      [reflexivity | discriminate Hc].
Qed.

(** An insertion for a type that is not there stores its pointer. *)
Lemma insertion_on_absent (T : ctype) (o : op) (c : ptr) (e : Entity) :
  inserted T o = Some c -> contains_T T e = false ->
  entry T (run_op o e) = Some (Some (typeid T), MakeComponentPtr T c).
Proof.
  intros Hi Hc. rewrite entry_step, Hi.
  rewrite contains_entry in Hc. now destruct (entry T e).
Qed.

(** ** The store: insertion, erasure, frame *)

(** C2 (insert-or-no-op, first writer wins): on an entity without a [T],
    after two insertions for [T] (each an [emplace<T>] or an [insert<T>])
    of distinct instances [A] then [B], [get<T>()] gives [A] and not [B],
    and the second insertion leaves the store exactly as the first left
    it. *)
Theorem insert_first_writer_wins
    (T : ctype) (A B : address) (oA oB : op) (e : Entity) :
  contains_T T e = false ->
  A <> B ->
  inserted T oA = Some (Some A) ->
  inserted T oB = Some (Some B) ->
  get_T T (run_op oA e) = Restored (Some A) /\
  run_op oB (run_op oA e) = run_op oA e /\
  get_T T (run_op oB (run_op oA e)) = Restored (Some A) /\
  get_T T (run_op oB (run_op oA e)) <> Restored (Some B).
Proof.
  intros Hc Hne HA HB.
  pose proof (insertion_on_absent T oA (Some A) e HA Hc) as H1.
  assert (G1 : get_T T (run_op oA e) = Restored (Some A)).
  { rewrite get_T_entry, H1. cbn [MakeComponentPtr up_get].
    apply static_cast_upcast. }
  assert (P1 : contains_T T (run_op oA e) = true).
  { rewrite contains_entry, H1. reflexivity. }
  rewrite (insertion_on_present T oB (Some B) (run_op oA e) HB P1).
  repeat split; trivial.
  rewrite G1. congruence.
Qed.

Lemma insert_first_writer_wins_witness :
  let e1 := run_op (OpEmplace Position 1%positive) Entity_new in
  let e2 := run_op (OpInsert "Position" (Some 2%positive)) e1 in
  get_T Position e1 = Restored (Some 1%positive) /\
  e2 = e1 /\
  get_T Position e2 = Restored (Some 1%positive) /\
  get_T Position e2 <> Restored (Some 2%positive).
Proof.
  apply (insert_first_writer_wins Position 1%positive 2%positive
           (OpEmplace Position 1%positive)
           (OpInsert "Position" (Some 2%positive)) Entity_new).
  - reflexivity.
  - lia.
  - reflexivity.
  - reflexivity.
Defined.

(** C8 (erase is idempotent and total): [erase<T>()] on an entity without
    a [T] leaves the store as it is; erasing twice gives the store that
    erasing once gives; and [contains<T>()] is false after either.  The
    same holds for [erase] by identity, whatever pointer it is given. *)
Theorem erase_idempotent (T : ctype) (e : Entity) :
  (contains_T T e = false -> erase_T T e = e) /\
  erase_T T (erase_T T e) = erase_T T e /\
  contains_T T (erase_T T e) = false /\
  contains_T T (erase_T T (erase_T T e)) = false /\
  (forall ti : type_info_ptr,
      (contains ti e = false -> erase ti e = e) /\
      erase ti (erase ti e) = erase ti e /\
      contains ti (erase ti e) = false).
Proof.
  assert (G : forall ti : type_info_ptr,
             (contains ti e = false -> erase ti e = e) /\
             erase ti (erase ti e) = erase ti e /\
             contains ti (erase ti e) = false).
  { intros ti. destruct e as [m]. unfold contains, erase. cbn [componentMap].
    repeat split.
    - intros H. rewrite erase_absent; trivial.
      now destruct (unordered_map.find ti m).
    - now rewrite erase_erase.
    - now rewrite find_erase_same. }
  destruct (G (Some (typeid T))) as (G1 & G2 & G3).
  unfold erase_T, contains_T in *.
  repeat split; trivial; try apply G.
  rewrite G2. exact G3.
Qed.

Lemma erase_idempotent_witness :
  contains_T Velocity resting = false /\ erase_T Velocity resting = resting.
Proof.
  split.
  - reflexivity.
  - apply (proj1 (erase_idempotent Velocity resting)). reflexivity.
Defined.

(** C9 (frame of single-type mutations): for distinct types [T] and [U],
    an [emplace<T>], [insert<T>] or [erase<T>] (or an [erase] by an
    identity that stands for [T]) leaves the entry of [U] as it was:
    [contains<U>()], [get<U>()] and [get] by [U]'s identity answer the
    same before and after. *)
Theorem single_type_frame (T U : ctype) (o : op) (e : Entity) :
  T <> U ->
  touched o = Some T ->
  contains_T U (run_op o e) = contains_T U e /\
  get_T U (run_op o e) = get_T U e /\
  get (Some (typeid U)) (run_op o e) = get (Some (typeid U)) e.
Proof.
  intros Hne Ht.
  assert (F : entry U (run_op o e) = entry U e).
  { apply entry_frame. congruence. }
  rewrite !contains_entry, !get_T_entry, F. repeat split.
  unfold get. fold (entry U (run_op o e)). fold (entry U e). now rewrite F.
Qed.

Lemma single_type_frame_witness :
  Velocity <> Position /\
  touched (OpEraseT Velocity) = Some Velocity /\
  (contains_T Position (run_op (OpEraseT Velocity) moving)
   = contains_T Position moving /\
   get_T Position (run_op (OpEraseT Velocity) moving)
   = get_T Position moving /\
   get (Some (typeid Position)) (run_op (OpEraseT Velocity) moving)
   = get (Some (typeid Position)) moving).
Proof.
  split; [discriminate|]. split; [reflexivity|].
  apply (single_type_frame Velocity Position (OpEraseT Velocity) moving).
  - discriminate.
  - reflexivity.
Defined.

(** ** Reachable stores: null identities and typed restore *)

(** C10 (null identity): in every reachable state no element sits under
    the null identity, so [get(nullptr)] is absent and
    [contains(nullptr)] is false; and the hash sends the null identity to
    0 without asking it for a [hash_code]. *)
Theorem null_identity_total (e : Entity) (hash_code : type_info -> N) :
  reachable e ->
  Forall (fun p => fst p <> None) (componentMap e) /\
  get None e = None /\
  contains None e = false /\
  HashTypeInfoReferents hash_code None = 0%N.
Proof.
  intros H. apply reachable_store_inv in H. destruct H as [Hk _].
  split; [|split; [|split]].
  - eapply Forall_impl; [|exact Hk].
    intros p (T & c & ->). discriminate.
  - unfold get. now rewrite (well_keyed_find_null _ Hk).
  - unfold contains. now rewrite (well_keyed_find_null _ Hk).
  - reflexivity.
Qed.

Lemma null_identity_total_witness :
  reachable moving /\
  get None moving = None /\
  contains None moving = false /\
  HashTypeInfoReferents (fun t => N.succ (ti_instance t)) None = 0%N.
Proof.
  assert (R : reachable moving).
  { apply (reachable_op (OpEmplace Velocity 2%positive)).
    apply (reachable_op (OpEmplace Position 1%positive)).
    apply reachable_new. }
  split; [exact R|].
  apply (null_identity_total moving (fun t => N.succ (ti_instance t)) R).
Defined.

(** C4 (typed restore is safe): in every reachable state the element
    found under [T]'s identity holds a pointer that was made from a [T*]
    by [MakeComponentPtr<T>], so the [static_cast<T*>] of [get<T>()] gives
    that pointer back and never meets an object of another type. *)
Theorem typed_restore_safe (e : Entity) (T : ctype) :
  reachable e ->
  (forall x, entry T e = Some x ->
             exists c, x = (Some (typeid T), MakeComponentPtr T c) /\
                       get_T T e = Restored c) /\
  (entry T e = None -> get_T T e = Restored None) /\
  get_T T e <> WrongType.
Proof.
  intros H. apply reachable_store_inv in H. destruct H as [Hk _].
  assert (G : forall x, entry T e = Some x ->
             exists c, x = (Some (typeid T), MakeComponentPtr T c) /\
                       get_T T e = Restored c).
  { intros x Hx. destruct (well_keyed_entry T e x Hk Hx) as [c ->].
    exists c. split; trivial.
    rewrite get_T_entry, Hx. cbn [MakeComponentPtr up_get].
    apply static_cast_upcast. }
  assert (G0 : entry T e = None -> get_T T e = Restored None).
  { intros Hx. now rewrite get_T_entry, Hx. }
  repeat split; trivial.
  destruct (entry T e) as [x|] eqn:E.
  - destruct (G x eq_refl) as (c & _ & ->). discriminate.
  - rewrite G0; trivial. discriminate.
Qed.

Lemma typed_restore_safe_witness :
  reachable moving /\ get_T Velocity moving <> WrongType.
Proof.
  assert (R : reachable moving).
  { apply (reachable_op (OpEmplace Velocity 2%positive)).
    apply (reachable_op (OpEmplace Position 1%positive)).
    apply reachable_new. }
  split; [exact R|].
  apply (typed_restore_safe moving Velocity R).
Defined.

(** The invariant is what keeps the restore safe: a store that holds a
    [Velocity] under [Position]'s identity, which no sequence of public
    calls builds, makes [get<Position>()] go wrong. *)
Example mis_keyed_store_goes_wrong :
  get_T Position
    {| componentMap :=
         [(Some (typeid Position), MakeComponentPtr Velocity (Some 1%positive))] |}
  = WrongType.
Proof. reflexivity. Qed.

(** ** Presence after a sequence of operations *)

Lemma run_ops_snoc (ops : list op) (o : op) (e : Entity) :
  run_ops (ops ++ [o]) e = run_op o (run_ops ops e).
Proof. unfold run_ops. now rewrite fold_left_app. Qed.

(** Where the marked operation of a split sits when the sequence ends
    in [o]: it is [o] itself, or [o] is the last of those after it. *)
Lemma split_snoc (pre post ops : list op) (o' o : op) :
  pre ++ o' :: post = ops ++ [o] ->
  (post = [] /\ pre = ops /\ o' = o) \/
  (exists post', post = post' ++ [o] /\ ops = pre ++ o' :: post').
Proof.
  intros H. destruct post as [|x post].
  - apply app_inj_tail in H. left. tauto.
  - right. destruct (exists_last (l := x :: post)) as (post' & a & E);
      [discriminate|].
    rewrite E in H |- *.
    change (pre ++ o' :: post' ++ [a]) with (pre ++ (o' :: post') ++ [a]) in H.
    rewrite app_assoc in H. apply app_inj_tail in H. destruct H as [H1 H2].
    subst a. exists post'. split; congruence.
Qed.

Lemma no_erase_snoc (T : ctype) (post : list op) (o : op) :
  forallb (fun o' => negb (erases T o')) (post ++ [o]) =
  forallb (fun o' => negb (erases T o')) post && negb (erases T o).
Proof. rewrite forallb_app. simpl. now rewrite andb_true_r. Qed.

(** The element of [T] after a sequence of operations on a new entity
    is the one made from the pointer of the live insertion. *)
Lemma entry_live (T : ctype) (ops : list op) (c : ptr) :
  entry T (run_ops ops Entity_new) = Some (Some (typeid T), MakeComponentPtr T c)
  <-> live_insertion_of T c ops.
Proof.
  revert c. induction ops as [|o ops IH] using rev_ind; intros c.
  - split; [discriminate|].
    intros (pre & o & post & E & _). now destruct pre.
  - rewrite run_ops_snoc, entry_step.
    destruct (inserted T o) as [c0|] eqn:Hi.
    + destruct (entry T (run_ops ops Entity_new)) as [x|] eqn:Hx.
      * (* the type is there: the insertion is dropped *)
        split.
        -- intros [= ->].
           destruct (proj1 (IH c) eq_refl) as (pre & o1 & post & -> & H1 & H2 & H3).
           exists pre, o1, (post ++ [o]). repeat split; trivial.
           ++ now rewrite <- app_assoc.
           ++ rewrite no_erase_snoc, H3.
              now rewrite (inserted_not_erases T o c0 Hi).
        -- intros (pre & o1 & post & E & H1 & H2 & H3).
           symmetry in E. apply split_snoc in E.
           destruct E as [(-> & -> & ->)|(post' & -> & ->)].
           ++ rewrite contains_entry, Hx in H2. discriminate.
           ++ rewrite no_erase_snoc in H3. apply andb_true_iff in H3.
              apply IH. exists pre, o1, post'. tauto.
      * (* the type is not there: the insertion stores its pointer *)
        split.
        -- intros [= E]. assert (c0 = c) as ->.
           { destruct c0, c; simpl in E; congruence. }
           exists ops, o, []. repeat split; trivial.
           now rewrite contains_entry, Hx.
        -- intros (pre & o1 & post & E & H1 & H2 & H3).
           symmetry in E. apply split_snoc in E.
           destruct E as [(-> & -> & ->)|(post' & -> & ->)].
           ++ congruence.
           ++ rewrite no_erase_snoc in H3. apply andb_true_iff in H3.
              assert (L : live_insertion_of T c (pre ++ o1 :: post')).
              { exists pre, o1, post'. tauto. }
              apply IH in L. congruence.
    + destruct (erases T o) eqn:He.
      * split; [discriminate|].
        intros (pre & o1 & post & E & H1 & H2 & H3).
        symmetry in E. apply split_snoc in E.
        destruct E as [(-> & -> & ->)|(post' & -> & ->)].
        -- congruence.
        -- rewrite no_erase_snoc, He, andb_false_r in H3. discriminate.
      * rewrite IH. split.
        -- intros (pre & o1 & post & -> & H1 & H2 & H3).
           exists pre, o1, (post ++ [o]). repeat split; trivial.
           ++ now rewrite <- app_assoc.
           ++ now rewrite no_erase_snoc, H3, He.
        -- intros (pre & o1 & post & E & H1 & H2 & H3).
           symmetry in E. apply split_snoc in E.
           destruct E as [(-> & -> & ->)|(post' & -> & ->)].
           ++ congruence.
           ++ rewrite no_erase_snoc in H3. apply andb_true_iff in H3.
              exists pre, o1, post'. tauto.
Qed.

Lemma live_insertion_some (T : ctype) (ops : list op) :
  live_insertion T ops <-> exists c, live_insertion_of T c ops.
Proof.
  unfold live_insertion, live_insertion_of, inserts. split.
  - intros (pre & o & post & E & H1 & H2 & H3).
    destruct (inserted T o) as [c|] eqn:Hi; [|discriminate].
    exists c, pre, o, post. tauto.
  - intros (c & pre & o & post & E & H1 & H2 & H3).
    exists pre, o, post. rewrite H1. tauto.
Qed.

(** C3 (uniqueness and presence), as the code has it.  After any
    sequence of operations on a new entity: [contains<T>()] holds exactly
    when an insertion of [T] is live (it stored its pointer and no erase
    of [T] followed); [get<T>()] gives the pointer that the live insertion
    handed over, so it is non-absent exactly when that pointer was not
    null (which [emplace<T>] guarantees and [insert<T>] does not); and no
    identity has more than one element in the store. *)
Theorem presence_after_operations (T : ctype) (ops : list op) :
  let e := run_ops ops Entity_new in
  (contains_T T e = true <-> live_insertion T ops) /\
  (forall c, live_insertion_of T c ops -> get_T T e = Restored c) /\
  (forall a, get_T T e = Restored (Some a)
             <-> live_insertion_of T (Some a) ops) /\
  (forall k, unordered_map.count k (componentMap e) <= 1).
Proof.
  intros e.
  assert (R : store_inv e).
  { apply reachable_store_inv, reachable_run_ops, reachable_new. }
  destruct R as [Hk Hc].
  assert (G : forall c, live_insertion_of T c ops -> get_T T e = Restored c).
  { intros c L. apply entry_live in L. fold e in L.
    rewrite get_T_entry, L. cbn [MakeComponentPtr up_get].
    apply static_cast_upcast. }
  split; [|split; [exact G|split; [|exact Hc]]].
  - rewrite contains_entry, live_insertion_some. split.
    + destruct (entry T e) as [x|] eqn:Hx; [intros _|discriminate].
      destruct (well_keyed_entry T e x Hk Hx) as [c ->].
      exists c. now apply entry_live.
    + intros [c L]. apply entry_live in L. fold e in L. now rewrite L.
  - intros a. split; [|apply G].
    intros Hg. destruct (entry T e) as [x|] eqn:Hx.
    + destruct (well_keyed_entry T e x Hk Hx) as [c ->].
      apply entry_live in Hx. rewrite (G c Hx) in Hg. congruence.
    + rewrite get_T_entry, Hx in Hg. discriminate.
Qed.

Lemma presence_after_operations_witness :
  let ops := [OpInsert "Position" None; OpEmplace Position 5%positive;
              OpEraseT Velocity] in
  live_insertion_of Position None ops /\
  get_T Position (run_ops ops Entity_new) = Restored None.
Proof.
  intros ops.
  assert (L : live_insertion_of Position None ops).
  { exists [], (OpInsert "Position" None),
      [OpEmplace Position 5%positive; OpEraseT Velocity].
    repeat split. }
  split; [exact L|].
  apply (proj1 (proj2 (presence_after_operations Position ops)) None L).
Defined.

(** C3 as the design document words it fails for a null pointer:
    [insert<Position>(nullptr)] on a new entity stores an element, so
    the insertion is live and [contains<Position>()] holds, while
    [get<Position>()] is absent. *)
Lemma presence_as_stated_fails :
  ~ presence_as_stated Position [OpInsert "Position" None].
Proof.
  unfold presence_as_stated. intros [_ H].
  assert (L : live_insertion Position [OpInsert "Position" None]).
  { exists [], (OpInsert "Position" None), []. repeat split. }
  destruct (H L) as [_ [a Ha]]. discriminate Ha.
Qed.

(** ** System: the filter *)

Lemma all_of_spec {A : Type} (range : list A) (pred : A -> bool) :
  all_of range pred = true <-> forall x, In x range -> pred x = true.
Proof.
  induction range as [|x rest IH]; simpl.
  - split; [intros _ y []|trivial].
  - destruct (pred x) eqn:E.
    + rewrite IH. split.
      * intros H y [<-|Hy]; auto.
      * intros H y Hy. auto.
    + split; [discriminate|].
      intros H. rewrite <- E. apply H. now left.
Qed.

Lemma all_of_false {A : Type} (range : list A) (pred : A -> bool) :
  all_of range pred = false <-> exists x, In x range /\ pred x = false.
Proof.
  induction range as [|x rest IH]; simpl.
  - split; [discriminate|intros (y & [] & _)].
  - destruct (pred x) eqn:E.
    + rewrite IH. split.
      * intros (y & Hy & Hp). eauto.
      * intros (y & [<-|Hy] & Hp); [congruence|eauto].
    + split; [eauto|trivial].
Qed.

Lemma snoc_neq {A : Type} (l : list A) (x : A) : l <> l ++ [x].
Proof.
  intros H. apply (f_equal (@List.length A)) in H.
  rewrite List.length_app in H. simpl in H. lia.
Qed.

Section SystemFacts.

Variable D : Type.
Variable logic : Entity -> System D -> Entity * System D.

Lemma process_passes (e : Entity) (w : world D) :
  passes (this w) e = true -> process logic e w = call_logic logic e w.
Proof. unfold process, passes. now intros ->. Qed.

Lemma process_skips (e : Entity) (w : world D) :
  passes (this w) e = false -> process logic e w = (e, w).
Proof. unfold process, passes. now intros ->. Qed.

Lemma invoked_call_logic (e : Entity) (w : world D) :
  invoked (snd (call_logic logic e w)) = invoked w ++ [e].
Proof. unfold call_logic. now destruct (logic e (this w)). Qed.

Lemma this_call_logic (e : Entity) (w : world D) :
  this (snd (call_logic logic e w)) = snd (logic e (this w)).
Proof. unfold call_logic. now destruct (logic e (this w)). Qed.

Lemma passes_ctor (Components : list ctype) (d : D) (e : Entity) :
  passes (System_ctor Components d) e = true <->
  forall T, In T Components -> contains_T T e = true.
Proof.
  unfold passes. rewrite all_of_spec. cbn [System_ctor componentTypes].
  split.
  - intros H T HT. apply H. now apply (in_map (fun T => Some (typeid T))).
  - intros H ti Hti. apply in_map_iff in Hti.
    destruct Hti as (T & <- & HT). now apply H.
Qed.

Lemma call_logic_eq (e : Entity) (w : world D) :
  call_logic logic e w =
  (fst (logic e (this w)),
   mk_world (snd (logic e (this w))) (invoked w ++ [e])).
Proof. unfold call_logic. now destruct (logic e (this w)). Qed.

End SystemFacts.

(** C1 (filter correctness): [process(e)] calls [logic(e)] exactly when
    [e.contains(ti)] holds for every required identity [ti].  When it
    does, the entity and the system object afterwards are those that
    [logic], applied to the entity and the system object, returns, and
    the call is recorded; when it does not, nothing happens at all.  For
    a system built over [T1..TN] the test is [contains<Ti>()] for every
    [i]; with no required type the call is always made. *)
Theorem process_filter (D : Type)
    (logic : Entity -> System D -> Entity * System D)
    (e : Entity) (w : world D) :
  let all_present :=
    forall ti, In ti (componentTypes (this w)) -> contains ti e = true in
  (invoked (snd (process logic e w)) = invoked w ++ [e] <-> all_present) /\
  (all_present ->
   process logic e w = call_logic logic e w /\
   process logic e w =
   (fst (logic e (this w)),
    mk_world (snd (logic e (this w))) (invoked w ++ [e]))) /\
  (~ all_present -> process logic e w = (e, w)) /\
  (forall Components d, this w = System_ctor Components d ->
     (all_present <-> forall T, In T Components -> contains_T T e = true)) /\
  (componentTypes (this w) = [] ->
   process logic e w =
   (fst (logic e (this w)),
    mk_world (snd (logic e (this w))) (invoked w ++ [e]))).
Proof.
  intros all_present.
  assert (P : passes (this w) e = true <-> all_present).
  { apply all_of_spec. }
  assert (Y : all_present -> process logic e w = call_logic logic e w).
  { intros H. apply process_passes, P, H. }
  assert (N : ~ all_present -> process logic e w = (e, w)).
  { intros H. apply process_skips.
    destruct (passes (this w) e); trivial. exfalso. apply H, P. reflexivity. }
  split; [|split; [|split; [exact N|split]]].
  - split.
    + intros H. destruct (passes (this w) e) eqn:E; [now apply P|].
      rewrite (process_skips D logic e w E) in H. simpl in H.
      now apply snoc_neq in H.
    + intros H. rewrite (Y H). apply invoked_call_logic.
  - intros H. split; [exact (Y H)|].
    rewrite (Y H). apply call_logic_eq.
  - intros Components d Hs. rewrite <- P, Hs. apply passes_ctor.
  - intros H. rewrite Y; [apply call_logic_eq|].
    intros ti Hti. rewrite H in Hti. destruct Hti.
Qed.

Lemma process_filter_witness :
  process stop_logic moving (mk_world stop_system [])
  = (erase_T Velocity moving,
     mk_world (mk_System (componentTypes stop_system) 1) [moving]) /\
  process stop_logic resting (mk_world stop_system [])
  = (resting, mk_world stop_system []).
Proof.
  split.
  - assert (H : forall ti, In ti (componentTypes stop_system) ->
                           contains ti moving = true).
    { intros ti [<-|[<-|[]]]; reflexivity. }
    exact (proj2 (proj1 (proj2 (process_filter nat stop_logic moving
                                  (mk_world stop_system []))) H)).
  - apply (proj1 (proj2 (proj2 (process_filter nat stop_logic resting
                                  (mk_world stop_system []))))).
    intros H. specialize (H (Some (typeid Velocity))).
    cbn in H. discriminate H. right. now left.
Defined.

(** C6 (filtering is read-only): if the entity lacks one of the required
    identities, [process(e)] returns with the entity's store, the system
    object and the record of calls all as they were.  In any case
    [process] either changes nothing or is exactly the call of [logic],
    which it makes only when every required identity is present. *)
Theorem filter_read_only (D : Type)
    (logic : Entity -> System D -> Entity * System D)
    (e : Entity) (w : world D) :
  ((exists ti, In ti (componentTypes (this w)) /\ contains ti e = false) ->
   process logic e w = (e, w) /\
   componentMap (fst (process logic e w)) = componentMap e) /\
  (process logic e w = (e, w) \/
   (forall ti, In ti (componentTypes (this w)) -> contains ti e = true) /\
   process logic e w = call_logic logic e w).
Proof.
  split.
  - intros H. apply all_of_false in H.
    rewrite (process_skips D logic e w H). auto.
  - destruct (passes (this w) e) eqn:E.
    + right. split; [now apply all_of_spec | now apply process_passes].
    + left. now apply process_skips.
Qed.

Lemma filter_read_only_witness :
  (exists ti, In ti (componentTypes stop_system) /\ contains ti resting = false) /\
  process stop_logic resting (mk_world stop_system [])
  = (resting, mk_world stop_system []).
Proof.
  assert (H : exists ti, In ti (componentTypes stop_system) /\
                         contains ti resting = false).
  { exists (Some (typeid Velocity)). split; [right; now left | reflexivity]. }
  split; [exact H|].
  apply (proj1 (filter_read_only nat stop_logic resting
                  (mk_world stop_system [])) H).
Defined.

(** ** System: sequences of entities and the required types *)

Section SequenceFacts.

Variable D : Type.
Variable logic : Entity -> System D -> Entity * System D.

Lemma types_after_process (e : Entity) (w : world D) :
  componentTypes (this (snd (process logic e w))) =
  if passes (this w) e
  then componentTypes (snd (logic e (this w)))
  else componentTypes (this w).
Proof.
  destruct (passes (this w) e) eqn:E.
  - now rewrite (process_passes D logic e w E), this_call_logic.
  - now rewrite (process_skips D logic e w E).
Qed.

Lemma process_keeps_types (e : Entity) (w : world D) :
  keeps_types logic ->
  componentTypes (this (snd (process logic e w))) = componentTypes (this w).
Proof.
  intros K. rewrite types_after_process.
  destruct (passes (this w) e); trivial.
Qed.

Lemma passes_same_types (s s' : System D) (e : Entity) :
  componentTypes s = componentTypes s' -> passes s e = passes s' e.
Proof. unfold passes. now intros ->. Qed.

Lemma process_vec_cons (e : Entity) (rest : list Entity) (w : world D) :
  process_vec logic (e :: rest) w =
  (fst (process logic e w)
     :: fst (process_vec logic rest (snd (process logic e w))),
   snd (process_vec logic rest (snd (process logic e w)))).
Proof.
  cbn [process_vec]. unfold bind, ret.
  destruct (process logic e w) as [e' w']. cbn [fst snd].
  now destruct (process_vec logic rest w').
Qed.

Lemma process_vec_app (es1 es2 : list Entity) (w : world D) :
  process_vec logic (es1 ++ es2) w =
  (fst (process_vec logic es1 w)
     ++ fst (process_vec logic es2 (snd (process_vec logic es1 w))),
   snd (process_vec logic es2 (snd (process_vec logic es1 w)))).
Proof.
  revert w. induction es1 as [|e es1 IH]; intros w.
  - simpl. now destruct (process_vec logic es2 w).
  - rewrite <- app_comm_cons, !process_vec_cons, IH. reflexivity.
Qed.

Lemma process_vec_length (es : list Entity) (w : world D) :
  List.length (fst (process_vec logic es w)) = List.length es.
Proof.
  revert w. induction es as [|e es IH]; intros w; trivial.
  rewrite process_vec_cons. simpl. now rewrite IH.
Qed.

Lemma process_vec_keeps_types (es : list Entity) (w : world D) :
  keeps_types logic ->
  componentTypes (this (snd (process_vec logic es w))) = componentTypes (this w).
Proof.
  intros K. revert w. induction es as [|e es IH]; intros w; trivial.
  rewrite process_vec_cons. cbn [snd].
  now rewrite IH, process_keeps_types.
Qed.

Lemma invoked_after_process (e : Entity) (w : world D) :
  invoked (snd (process logic e w)) =
  invoked w ++ (if passes (this w) e then [e] else []).
Proof.
  destruct (passes (this w) e) eqn:E.
  - now rewrite (process_passes D logic e w E), invoked_call_logic.
  - rewrite (process_skips D logic e w E). simpl. now rewrite app_nil_r.
Qed.

(** With the required types left alone, the calls of [logic] made by a
    pass over a sequence are those for the entities that pass the
    filter, in the order of the sequence. *)
Lemma invoked_after_process_vec (es : list Entity) (w : world D) :
  keeps_types logic ->
  invoked (snd (process_vec logic es w)) =
  invoked w ++ filter (passes (this w)) es.
Proof.
  intros K. revert w. induction es as [|e es IH]; intros w.
  - simpl. now rewrite app_nil_r.
  - rewrite process_vec_cons. cbn [snd]. rewrite IH, invoked_after_process.
    rewrite <- app_assoc. f_equal.
    rewrite (filter_ext (passes (this (snd (process logic e w))))
               (passes (this w))).
    + simpl. now destruct (passes (this w) e).
    + intros x. apply passes_same_types. now apply process_keeps_types.
Qed.

(** Entities that fail the filter go through a pass untouched, and the
    pass leaves the system as it found it. *)
Lemma process_vec_skips_all (es : list Entity) (w : world D) :
  (forall x, In x es -> passes (this w) x = false) ->
  process_vec logic es w = (es, w).
Proof.
  induction es as [|e es IH]; intros H; trivial.
  rewrite process_vec_cons.
  rewrite (process_skips D logic e w (H e (or_introl eq_refl))).
  cbn [fst snd]. rewrite IH; trivial.
  intros x Hx. apply H. now right.
Qed.

Lemma process_cases (e : Entity) (w : world D) :
  process logic e w =
  if passes (this w) e
  then (fst (logic e (this w)),
        mk_world (snd (logic e (this w))) (invoked w ++ [e]))
  else (e, w).
Proof.
  destruct (passes (this w) e) eqn:P.
  - rewrite (process_passes D logic e w P). apply call_logic_eq.
  - now apply process_skips.
Qed.

End SequenceFacts.

Lemma stop_logic_keeps_types : keeps_types stop_logic.
Proof. intros x s. reflexivity. Qed.

(** C5 (sequences), as the code has it.  [process(sequence)] is
    [process(entity)] on each entity once, from the first to the last,
    with no short-circuit: the entity at any position is processed, by
    [process(entity)], in the state of the system object that the pass
    over the entities in front of it has left, and the result has one
    entity per input entity.  Entities in front that fail the filter
    are returned untouched and leave that state as it was, so they have
    no effect on whether or how the entity is processed.  Entities in
    front that pass have the effect that [logic] had on the system
    object, and no other: with a [logic] that leaves the required types
    alone, the filter for the entity answers as it would have at the
    start, and [logic] is called for precisely the entities that pass,
    in order. *)
Theorem process_vec_in_order (D : Type)
    (logic : Entity -> System D -> Entity * System D)
    (es1 es2 : list Entity) (e : Entity) (w : world D) :
  let w1 := snd (process_vec logic es1 w) in
  let w2 := snd (process logic e w1) in
  process_vec logic (es1 ++ e :: es2) w =
    (fst (process_vec logic es1 w)
       ++ fst (process logic e w1) :: fst (process_vec logic es2 w2),
     snd (process_vec logic es2 w2)) /\
  process logic e w1 =
    (if passes (this w1) e
     then (fst (logic e (this w1)),
           mk_world (snd (logic e (this w1))) (invoked w1 ++ [e]))
     else (e, w1)) /\
  List.length (fst (process_vec logic es1 w)) = List.length es1 /\
  List.length (fst (process_vec logic (es1 ++ e :: es2) w))
  = List.length (es1 ++ e :: es2) /\
  ((forall x, In x es1 -> passes (this w) x = false) ->
   fst (process_vec logic es1 w) = es1 /\ w1 = w) /\
  (keeps_types logic ->
   passes (this w1) e = passes (this w) e /\
   invoked (snd (process_vec logic (es1 ++ e :: es2) w))
   = invoked w ++ filter (passes (this w)) (es1 ++ e :: es2)).
Proof.
  intros w1 w2. split; [|split; [|split; [|split; [|split]]]].
  - rewrite process_vec_app, process_vec_cons. reflexivity.
  - apply process_cases.
  - apply process_vec_length.
  - apply process_vec_length.
  - intros H. unfold w1. now rewrite (process_vec_skips_all D logic es1 w H).
  - intros K. split.
    + apply passes_same_types. now apply process_vec_keeps_types.
    + now apply invoked_after_process_vec.
Qed.

Lemma process_vec_in_order_witness :
  keeps_types stop_logic /\
  (forall x, In x [resting] -> passes stop_system x = false) /\
  snd (process_vec stop_logic [resting] (mk_world stop_system []))
  = mk_world stop_system [] /\
  invoked (snd (process_vec stop_logic ([resting] ++ moving :: [resting])
                  (mk_world stop_system [])))
  = [] ++ filter (passes stop_system) ([resting] ++ moving :: [resting]) /\
  filter (passes stop_system) ([resting] ++ moving :: [resting]) = [moving].
Proof.
  assert (F : forall x, In x [resting] -> passes stop_system x = false).
  { intros x [<-|[]]. reflexivity. }
  pose proof (process_vec_in_order nat stop_logic [resting] [resting] moving
                (mk_world stop_system [])) as T.
  cbv zeta in T. destruct T as (_ & _ & _ & _ & T5 & T6).
  split; [exact stop_logic_keeps_types|]. split; [exact F|].
  split; [exact (proj2 (T5 F))|]. split; [|reflexivity].
  exact (proj2 (T6 stop_logic_keeps_types)).
Defined.

(** C5 as the design document words it fails, for whether and for how.
    A [logic] that empties [componentTypes] makes the next entity pass
    whatever it holds, so an entity without a velocity is handed to
    [logic] after a passing entity and skipped after a failing one.  And
    a [logic] that leaves the required types alone but counts its calls
    treats the same entity differently after a passing entity than
    after a failing one. *)
Lemma sequence_independence_as_stated_fails :
  ~ sequence_independence_as_stated nat clearing_logic /\
  (keeps_types later_stop_logic /\
   ~ sequence_independence_as_stated nat later_stop_logic).
Proof.
  split; [|split].
  - intros H.
    destruct (H (mk_world stop_system []) moving resting resting
                eq_refl eq_refl) as [C _].
    vm_compute in C. discriminate C.
  - intros x s. reflexivity.
  - intros H.
    destruct (H (mk_world stop_system []) moving resting moving
                eq_refl eq_refl) as [_ R].
    vm_compute in R. discriminate R.
Qed.

(** C7 (the required types), as the code has it.  The constructor sets
    [componentTypes] to the identities of [T1..TN] in the order of
    declaration.  [process] itself never writes the member: after it the
    member is as before if the entity fails the filter, and as the
    concrete [logic] left it if [logic] was called.  The member is public
    and not const, so nothing keeps [logic] from writing it; with a
    [logic] that leaves it alone no [process], on an entity or on a
    sequence, changes it. *)
Theorem required_types_fixed (D : Type)
    (logic : Entity -> System D -> Entity * System D) :
  (forall (Components : list ctype) (d : D),
      componentTypes (System_ctor Components d)
      = map (fun T => Some (typeid T)) Components /\
      List.length (componentTypes (System_ctor Components d))
      = List.length Components /\
      forall i, nth_error (componentTypes (System_ctor Components d)) i
                = option_map (fun T => Some (typeid T)) (nth_error Components i)) /\
  (forall (e : Entity) (w : world D),
      componentTypes (this (snd (process logic e w))) =
      if passes (this w) e
      then componentTypes (snd (logic e (this w)))
      else componentTypes (this w)) /\
  (keeps_types logic ->
   (forall (e : Entity) (w : world D),
       componentTypes (this (snd (process logic e w)))
       = componentTypes (this w)) /\
   (forall (es : list Entity) (w : world D),
       componentTypes (this (snd (process_vec logic es w)))
       = componentTypes (this w))) /\
  (forall (es : list Entity) (w : world D),
      (forall x, In x es -> passes (this w) x = false) ->
      componentTypes (this (snd (process_vec logic es w)))
      = componentTypes (this w)).
Proof.
  split; [|split; [|split]].
  - intros Components d. cbn [System_ctor componentTypes].
    split; [reflexivity|]. split.
    + apply List.length_map.
    + intros i. apply nth_error_map.
  - apply types_after_process.
  - intros K. split.
    + intros e w. now apply process_keeps_types.
    + intros es w. now apply process_vec_keeps_types.
  - intros es w H. now rewrite (process_vec_skips_all D logic es w H).
Qed.

Lemma required_types_fixed_witness :
  keeps_types stop_logic /\
  componentTypes stop_system
  = [Some (typeid Position); Some (typeid Velocity)] /\
  componentTypes
    (this (snd (process_vec stop_logic [moving; resting; moving]
                  (mk_world stop_system []))))
  = componentTypes stop_system.
Proof.
  split; [exact stop_logic_keeps_types|]. split.
  - apply (proj1 (proj1 (required_types_fixed nat stop_logic)
                    [Position; Velocity] 0)).
  - apply (proj2 (proj1 (proj2 (proj2 (required_types_fixed nat stop_logic)))
                    stop_logic_keeps_types)
             [moving; resting; moving] (mk_world stop_system [])).
Defined.

(** C7 as the design document words it fails: a concrete system whose
    [logic] empties [componentTypes] has another list of required types
    after [process] on an entity that passes the filter. *)
Lemma required_types_as_stated_fails :
  ~ required_types_as_stated nat clearing_logic.
Proof.
  intros H. specialize (H moving (mk_world stop_system [])).
  vm_compute in H. discriminate H.
Qed.

(** ** The scenarios of the design document, run on the model *)

Example scenario_erase :
  let e := erase_T Position (emplace Position 1%positive Entity_new) in
  contains_T Position e = false /\ get_T Position e = Restored None.
Proof. split; reflexivity. Qed.

Example scenario_sequence :
  process_vec stop_logic [moving; resting] (mk_world stop_system [])
  = ([erase_T Velocity moving; resting],
     mk_world (mk_System (componentTypes stop_system) 1) [moving]).
Proof. reflexivity. Qed.

Example scenario_null_insert :
  let e := insert "Position" None Entity_new in
  contains_T Position e = true /\ get_T Position e = Restored None.
Proof. split; reflexivity. Qed.

Example scenario_other_instance :
  let other := Some {| ti_instance := 7; ti_type := Position |} in
  contains other resting = true /\
  contains_T Position (erase other resting) = false.
Proof. split; reflexivity. Qed.

(** * Further properties of the header *)

(** ** Key equality and hashing *)

(** X1: [EqualReferents] is an equivalence relation, as the container
    requires of its key equality, and its classes are the types: two
    pointers are equivalent exactly when both are null or both point to
    objects describing the same type. *)
Theorem EqualReferents_equivalence :
  (forall a, EqualReferents a a = true) /\
  (forall a b, EqualReferents a b = EqualReferents b a) /\
  (forall a b c, EqualReferents a b = true -> EqualReferents b c = true ->
                 EqualReferents a c = true) /\
  (forall a b, EqualReferents a b = true <->
               (a = None /\ b = None) \/
               (exists x y, a = Some x /\ b = Some y /\ ti_type x = ti_type y)).
Proof.
  split; [|split; [|split]].
  - intros a. now apply EqualReferents_key_type.
  - apply EqualReferents_sym.
  - intros a b c H1 H2. apply EqualReferents_key_type in H1, H2.
    apply EqualReferents_key_type. congruence.
  - intros a b. rewrite EqualReferents_key_type. unfold key_type. split.
    + destruct a as [x|], b as [y|]; simpl; try discriminate.
      * intros [= H]. right. now exists x, y.
      * intros _. now left.
    + intros [[-> ->]|(x & y & -> & -> & H)]; simpl; congruence.
Qed.

Lemma EqualReferents_equivalence_witness :
  EqualReferents (Some (mk_type_info 4 Position)) (Some (typeid Position)) = true /\
  EqualReferents (Some (typeid Position)) (Some (mk_type_info 9 Position)) = true /\
  EqualReferents (Some (mk_type_info 4 Position)) (Some (mk_type_info 9 Position))
  = true.
Proof.
  assert (H1 : EqualReferents (Some (mk_type_info 4 Position))
                 (Some (typeid Position)) = true) by reflexivity.
  assert (H2 : EqualReferents (Some (typeid Position))
                 (Some (mk_type_info 9 Position)) = true) by reflexivity.
  split; [exact H1|]. split; [exact H2|].
  exact (proj1 (proj2 (proj2 EqualReferents_equivalence)) _ _ _ H1 H2).
Defined.

(** X2: the hash agrees with the key equality.  With a [hash_code] that
    is equal on objects that compare equal, two equivalent keys have the
    same hash, so [find] looks for a key in the bucket where an
    equivalent key was put. *)
Theorem hash_agrees_with_equality (hash_code : type_info -> N)
    (lhs rhs : type_info_ptr) :
  hash_respects_eq hash_code ->
  EqualReferents lhs rhs = true ->
  HashTypeInfoReferents hash_code lhs = HashTypeInfoReferents hash_code rhs.
Proof.
  intros Hh He. destruct lhs as [a|], rhs as [b|]; simpl; trivial;
    try discriminate.
  apply Hh. apply EqualReferents_key_type in He. simpl in He.
  unfold type_info_eqb. apply ctype_eqb_eq. congruence.
Qed.

Lemma hash_agrees_with_equality_witness :
  hash_respects_eq name_hash /\
  HashTypeInfoReferents name_hash (Some (mk_type_info 4 Position))
  = HashTypeInfoReferents name_hash (Some (typeid Position)).
Proof.
  assert (H : hash_respects_eq name_hash).
  { intros a b E. unfold type_info_eqb in E. apply ctype_eqb_eq in E.
    unfold name_hash. now rewrite E. }
  split; [exact H|].
  apply (hash_agrees_with_equality name_hash
           (Some (mk_type_info 4 Position)) (Some (typeid Position)) H).
  reflexivity.
Defined.

(** ** Lookups *)

Lemma erase_congr (a b : type_info_ptr) (m : unordered_map.t) :
  EqualReferents a b = true -> unordered_map.erase a m = unordered_map.erase b m.
Proof.
  intros H. induction m as [|[k v] m IH]; simpl; trivial.
  now rewrite (EqualReferents_congr a b k H), IH.
Qed.

(** What [find] sees after one operation, for any key. *)
Lemma find_run_op (o : op) (k : type_info_ptr) (e : Entity) :
  unordered_map.find k (componentMap (run_op o e)) =
  match o with
  | OpEmplace T p =>
      match unordered_map.find k (componentMap e) with
      | Some x => Some x
      | None => if EqualReferents (Some (typeid T)) k
                then Some (Some (typeid T), MakeComponentPtr T (Some p))
                else None
      end
  | OpInsert name c =>
      match unordered_map.find k (componentMap e) with
      | Some x => Some x
      | None => if EqualReferents (Some (typeid (Derived name))) k
                then Some (Some (typeid (Derived name)),
                           MakeComponentPtr (Derived name) c)
                else None
      end
  | OpEraseT T =>
      if EqualReferents (Some (typeid T)) k then None
      else unordered_map.find k (componentMap e)
  | OpErase ti =>
      if EqualReferents ti k then None
      else unordered_map.find k (componentMap e)
  end.
Proof.
  destruct o as [T p|name c|T|ti];
    cbn [run_op emplace insert erase erase_T componentMap].
  - apply find_emplace.
  - apply find_emplace.
  - apply find_erase.
  - apply find_erase.
Qed.

(** X3: the store does not tell apart two identities of one type.  For
    pointers to any two [type_info] objects that compare equal (or two
    null pointers), [get], [contains] and [erase] by identity behave the
    same; so an identity obtained elsewhere for [T] reaches what
    [emplace<T>] stored. *)
Theorem equivalent_identities_agree (ti ti' : type_info_ptr) (e : Entity) :
  EqualReferents ti ti' = true ->
  get ti e = get ti' e /\
  contains ti e = contains ti' e /\
  erase ti e = erase ti' e.
Proof.
  intros H. unfold get, contains, erase.
  rewrite (find_congr ti ti' (componentMap e) H).
  now rewrite (erase_congr ti ti' (componentMap e) H).
Qed.

Lemma equivalent_identities_agree_witness :
  let other := Some (mk_type_info 7 Velocity) in
  EqualReferents other (Some (typeid Velocity)) = true /\
  get other moving = get (Some (typeid Velocity)) moving /\
  contains other moving = contains_T Velocity moving /\
  erase other moving = erase_T Velocity moving.
Proof.
  intros other. split; [reflexivity|].
  apply (equivalent_identities_agree other (Some (typeid Velocity)) moving).
  reflexivity.
Defined.

(** X4: what [get] by identity hands out.  If the identity is not
    contained the result is null; and in a reachable state a non-null
    result points to an object of the very type the identity describes
    (and then the identity is contained). *)
Theorem get_by_identity_typed (ti : type_info_ptr) (e : Entity) :
  (contains ti e = false -> get ti e = None) /\
  (reachable e ->
   forall U a, get ti e = Some (U, a) ->
               key_type ti = Some U /\ contains ti e = true).
Proof.
  unfold get, contains. split.
  - now destruct (unordered_map.find ti (componentMap e)).
  - intros R U a. apply reachable_store_inv in R. destruct R as [Hk _].
    destruct (unordered_map.find ti (componentMap e)) as [x|] eqn:F;
      [|discriminate].
    apply find_key in F. destruct F as [Hin Heq].
    rewrite Forall_forall in Hk. destruct (Hk x Hin) as (T & c & ->).
    cbn [snd MakeComponentPtr up_get fst] in *.
    apply EqualReferents_key_type in Heq. simpl in Heq.
    destruct c as [a'|]; simpl; [|discriminate].
    intros [= -> ->]. split; [congruence|reflexivity].
Qed.

Lemma get_by_identity_typed_witness :
  reachable resting /\
  get (Some (mk_type_info 7 Position)) resting = Some (Position, 3%positive) /\
  key_type (Some (mk_type_info 7 Position)) = Some Position /\
  contains (Some (mk_type_info 7 Position)) resting = true.
Proof.
  assert (R : reachable resting).
  { apply (reachable_op (OpEmplace Position 3%positive)), reachable_new. }
  split; [exact R|]. split; [reflexivity|].
  apply (proj2 (get_by_identity_typed (Some (mk_type_info 7 Position)) resting)
           R Position 3%positive).
  reflexivity.
Defined.

(** ** Insertion and erasure together *)

(** X5: erase first, then insert, to overwrite.  After [erase<T>()] an
    insertion for [T] always stores its pointer: [contains<T>()] holds and
    [get<T>()] is the pointer handed over, whatever the entity held
    before. *)
Theorem erase_then_insert_overwrites
    (T : ctype) (o : op) (c : ptr) (e : Entity) :
  inserted T o = Some c ->
  contains_T T (run_op o (erase_T T e)) = true /\
  get_T T (run_op o (erase_T T e)) = Restored c /\
  entry T (run_op o (erase_T T e))
  = Some (Some (typeid T), MakeComponentPtr T c).
Proof.
  intros Hi.
  assert (A : contains_T T (erase_T T e) = false).
  { unfold contains_T, erase_T, contains, erase. cbn [componentMap].
    now rewrite find_erase_same. }
  pose proof (insertion_on_absent T o c (erase_T T e) Hi A) as E.
  rewrite contains_entry, get_T_entry, E. cbn [MakeComponentPtr up_get].
  repeat split. apply static_cast_upcast.
Qed.

Lemma erase_then_insert_overwrites_witness :
  inserted Position (OpInsert "Position" (Some 8%positive))
  = Some (Some 8%positive) /\
  get_T Position resting = Restored (Some 3%positive) /\
  get_T Position (insert "Position" (Some 8%positive) (erase_T Position resting))
  = Restored (Some 8%positive).
Proof.
  split; [reflexivity|]. split; [reflexivity|].
  apply (proj1 (proj2 (erase_then_insert_overwrites Position
                         (OpInsert "Position" (Some 8%positive))
                         (Some 8%positive) resting eq_refl))).
Defined.

(** X6: insert, then erase, to undo.  On an entity without a [T], an
    insertion for [T] followed by [erase<T>()] leaves every lookup as it
    was before the two calls. *)
Theorem insert_then_erase_undoes
    (T : ctype) (o : op) (c : ptr) (e : Entity) :
  inserted T o = Some c ->
  contains_T T e = false ->
  same_lookups (erase_T T (run_op o e)) e /\
  (forall ti, get ti (erase_T T (run_op o e)) = get ti e) /\
  (forall ti, contains ti (erase_T T (run_op o e)) = contains ti e).
Proof.
  intros Hi Hc.
  assert (S : same_lookups (erase_T T (run_op o e)) e).
  { intros k. unfold erase_T, erase. cbn [componentMap].
    rewrite find_erase, find_run_op.
    rewrite contains_entry in Hc. unfold entry in Hc.
    destruct (EqualReferents (Some (typeid T)) k) eqn:E.
    - rewrite <- (find_congr _ _ (componentMap e) E).
      now destruct (unordered_map.find (Some (typeid T)) (componentMap e)).
    - destruct o as [U p|name c'|U|ti]; cbn [inserted] in Hi;
        try discriminate.
      + destruct (ctype_eqb U T) eqn:EU; [|discriminate].
        apply ctype_eqb_eq in EU. subst U. rewrite E.
        now destruct (unordered_map.find k (componentMap e)).
      + destruct (ctype_eqb (Derived name) T) eqn:EU; [|discriminate].
        apply ctype_eqb_eq in EU. subst T. rewrite E.
        now destruct (unordered_map.find k (componentMap e)). }
  split; [exact S|]. split; intros ti; unfold get, contains; now rewrite S.
Qed.

Lemma insert_then_erase_undoes_witness :
  inserted Velocity (OpEmplace Velocity 6%positive) = Some (Some 6%positive) /\
  contains_T Velocity resting = false /\
  same_lookups (erase_T Velocity (emplace Velocity 6%positive resting)) resting.
Proof.
  split; [reflexivity|]. split; [reflexivity|].
  apply (proj1 (insert_then_erase_undoes Velocity
                  (OpEmplace Velocity 6%positive) (Some 6%positive) resting
                  eq_refl eq_refl)).
Defined.

(** X7: insertions only add and erasures only remove.  An insertion
    leaves every identity that was contained as it was, with the same
    pointer; and whatever is contained after an [erase] was contained
    before, with the same pointer. *)
Theorem insert_adds_erase_removes
    (T : ctype) (o : op) (c : ptr) (k ti : type_info_ptr) (e : Entity) :
  (inserted T o = Some c -> contains ti e = true ->
   contains ti (run_op o e) = true /\ get ti (run_op o e) = get ti e) /\
  (contains ti (erase k e) = true ->
   contains ti e = true /\ get ti (erase k e) = get ti e).
Proof.
  unfold contains, get. split.
  - intros Hi Hc. rewrite find_run_op.
    destruct (unordered_map.find ti (componentMap e)) as [x|];
      [|discriminate].
    destruct o; cbn [inserted] in Hi; try discriminate; auto.
  - cbn [erase componentMap]. rewrite find_erase.
    destruct (EqualReferents k ti); [discriminate|]. auto.
Qed.

Lemma insert_adds_erase_removes_witness :
  contains (Some (typeid Position)) resting = true /\
  contains (Some (typeid Position))
    (run_op (OpInsert "Velocity" None) resting) = true /\
  get (Some (typeid Position)) (run_op (OpInsert "Velocity" None) resting)
  = get (Some (typeid Position)) resting.
Proof.
  split; [reflexivity|].
  apply (proj1 (insert_adds_erase_removes Velocity (OpInsert "Velocity" None)
                  None None (Some (typeid Position)) resting));
    reflexivity.
Defined.

(** X8: operations on distinct types commute.  Two operations whose
    types differ may be made in either order: every lookup gives the same
    element afterwards. *)
Theorem distinct_types_commute (T U : ctype) (o1 o2 : op) (e : Entity) :
  touched o1 = Some T ->
  touched o2 = Some U ->
  T <> U ->
  same_lookups (run_op o2 (run_op o1 e)) (run_op o1 (run_op o2 e)).
Proof.
  intros H1 H2 Hne k. rewrite !find_run_op.
  destruct o1 as [T1 p1|n1 c1|T1|t1], o2 as [T2 p2|n2 c2|T2|t2];
    cbn [touched] in H1, H2;
    destruct (unordered_map.find k (componentMap e)); key_cases;
    cbn [key_type option_map typeid ti_type] in *;
    try reflexivity; congruence.
Qed.

Lemma distinct_types_commute_witness :
  touched (OpEraseT Position) = Some Position /\
  touched (OpInsert "Velocity" (Some 4%positive)) = Some Velocity /\
  Position <> Velocity /\
  same_lookups
    (run_op (OpInsert "Velocity" (Some 4%positive))
       (run_op (OpEraseT Position) resting))
    (run_op (OpEraseT Position)
       (run_op (OpInsert "Velocity" (Some 4%positive)) resting)).
Proof.
  split; [reflexivity|]. split; [reflexivity|]. split; [discriminate|].
  apply (distinct_types_commute Position Velocity (OpEraseT Position)
           (OpInsert "Velocity" (Some 4%positive)) resting).
  - reflexivity.
  - reflexivity.
  - discriminate.
Defined.

(** ** The traversal from [begin()] to [end()] *)

Lemma In_count (p : unordered_map.value_type) (m : unordered_map.t) :
  In p m -> 1 <= unordered_map.count (fst p) m.
Proof.
  induction m as [|[k v] m IH]; simpl; [tauto|].
  intros [<-|H].
  - simpl. replace (EqualReferents k k) with true; [lia|].
    symmetry. now apply EqualReferents_key_type.
  - specialize (IH H). lia.
Qed.

(** With one element per identity at most, an element of the map is the
    one its own key finds. *)
Lemma find_own_key (p : unordered_map.value_type) (m : unordered_map.t) :
  (forall k, unordered_map.count k m <= 1) ->
  In p m -> unordered_map.find (fst p) m = Some p.
Proof.
  induction m as [|[k v] m IH]; simpl; [tauto|].
  intros Hc [<-|H].
  - simpl. replace (EqualReferents k k) with true; trivial.
    symmetry. now apply EqualReferents_key_type.
  - destruct (EqualReferents k (fst p)) eqn:E.
    + specialize (Hc (fst p)). rewrite E in Hc.
      apply In_count in H. lia.
    + apply IH; trivial. intros k'. specialize (Hc k'). lia.
Qed.

Lemma keys_once (m : unordered_map.t) :
  (forall k, unordered_map.count k m <= 1) ->
  NoDup (map (fun p => key_type (fst p)) m).
Proof.
  induction m as [|[k v] m IH]; simpl; intros Hc; constructor.
  - intros Hin. apply in_map_iff in Hin. destruct Hin as (p & Hp & Hin).
    apply In_count in Hin. specialize (Hc (fst p)).
    symmetry in Hp. apply EqualReferents_key_type in Hp.
    rewrite Hp in Hc. lia.
  - apply IH. intros k'. specialize (Hc k'). lia.
Qed.

Lemma length_erase_count (k : type_info_ptr) (m : unordered_map.t) :
  List.length (unordered_map.erase k m) + unordered_map.count k m
  = List.length m.
Proof.
  induction m as [|[k' v] m IH]; simpl; trivial.
  destruct (EqualReferents k' k); simpl; lia.
Qed.

Lemma iterate_length (e : Entity) :
  List.length (iterate e) = List.length (componentMap e).
Proof. apply List.length_map. Qed.

(** X9: the traversal and [get] agree.  In a reachable state every pair
    that the iterators yield is an identity that is contained together
    with the pointer that [get] gives for it; and every contained
    identity has its pair, under an equivalent identity. *)
Theorem traversal_agrees_with_get (e : Entity) :
  reachable e ->
  (forall ti c, In (ti, c) (iterate e) ->
                contains ti e = true /\ get ti e = c) /\
  (forall ti, contains ti e = true ->
              exists ti', In (ti', get ti e) (iterate e) /\
                          EqualReferents ti' ti = true).
Proof.
  intros R. apply reachable_store_inv in R. destruct R as [_ Hc]. split.
  - intros ti c Hin. unfold iterate in Hin. apply in_map_iff in Hin.
    destruct Hin as ([k v] & [= <- <-] & Hin).
    pose proof (find_own_key (k, v) (componentMap e) Hc Hin) as F.
    cbn [fst RemoveUnique snd] in *. unfold contains, get.
    now rewrite F.
  - intros ti H. unfold contains, get in *.
    destruct (unordered_map.find ti (componentMap e)) as [[k v]|] eqn:F;
      [|discriminate].
    apply find_key in F. destruct F as [Hin Heq].
    exists k. split; trivial.
    unfold iterate. apply in_map_iff. now exists (k, v).
Qed.

Lemma traversal_agrees_with_get_witness :
  reachable moving /\
  In (Some (typeid Velocity), Some (Velocity, 2%positive)) (iterate moving) /\
  contains (Some (typeid Velocity)) moving = true /\
  get (Some (typeid Velocity)) moving = Some (Velocity, 2%positive).
Proof.
  assert (R : reachable moving).
  { apply (reachable_op (OpEmplace Velocity 2%positive)).
    apply (reachable_op (OpEmplace Position 1%positive)).
    apply reachable_new. }
  assert (I : In (Some (typeid Velocity), Some (Velocity, 2%positive))
                (iterate moving)).
  { right. now left. }
  split; [exact R|]. split; [exact I|].
  apply (proj1 (traversal_agrees_with_get moving R) _ _ I).
Defined.

(** X10: the traversal visits each type once.  In a reachable state no
    two pairs carry identities of the same type, and every identity
    yielded is the non-null [&typeid(T)] of some component type. *)
Theorem traversal_visits_each_type_once (e : Entity) :
  reachable e ->
  NoDup (map (fun p => key_type (fst p)) (iterate e)) /\
  Forall (fun p => exists T, fst p = Some (typeid T)) (iterate e).
Proof.
  intros R. apply reachable_store_inv in R. destruct R as [Hk Hc]. split.
  - unfold iterate. rewrite map_map. cbn [RemoveUnique fst].
    now apply keys_once.
  - unfold iterate. apply Forall_map.
    eapply Forall_impl; [|exact Hk].
    intros p (T & c & ->). now exists T.
Qed.

Lemma traversal_visits_each_type_once_witness :
  reachable moving /\
  NoDup (map (fun p => key_type (fst p)) (iterate moving)).
Proof.
  assert (R : reachable moving).
  { apply (reachable_op (OpEmplace Velocity 2%positive)).
    apply (reachable_op (OpEmplace Position 1%positive)).
    apply reachable_new. }
  split; [exact R|].
  apply (proj1 (traversal_visits_each_type_once moving R)).
Defined.

(** X11: what [erase] does to the traversal.  The pairs whose identity
    is equivalent to the erased one are gone, and the others are yielded
    as before and in the same order. *)
Theorem traversal_after_erase (ti : type_info_ptr) (e : Entity) :
  iterate (erase ti e)
  = filter (fun p => negb (EqualReferents (fst p) ti)) (iterate e).
Proof.
  destruct e as [m]. unfold iterate, erase. cbn [componentMap].
  induction m as [|[k v] m IH]; simpl; trivial.
  destruct (EqualReferents k ti); simpl; now rewrite IH.
Qed.

(** X12: how the number of components changes.  An insertion for [T]
    adds one element if the entity had no [T] and none otherwise; in a
    reachable state an [erase] removes one element if the identity was
    contained and none otherwise. *)
Theorem size_after_operation
    (T : ctype) (o : op) (c : ptr) (ti : type_info_ptr) (e : Entity) :
  (inserted T o = Some c ->
   List.length (iterate (run_op o e))
   = List.length (iterate e) + (if contains_T T e then 0 else 1)) /\
  (reachable e ->
   List.length (iterate (erase ti e)) + (if contains ti e then 1 else 0)
   = List.length (iterate e)).
Proof.
  split.
  - intros Hi. destruct (contains_T T e) eqn:Hc.
    + rewrite (insertion_on_present T o c e Hi Hc). lia.
    + rewrite !iterate_length.
      rewrite contains_entry in Hc. unfold entry in Hc.
      destruct o as [U p|name c'|U|t]; cbn [inserted] in Hi;
        try discriminate.
      * destruct (ctype_eqb U T) eqn:EU; [|discriminate].
        apply ctype_eqb_eq in EU. subst U.
        cbn [run_op emplace componentMap]. unfold unordered_map.emplace.
        destruct (unordered_map.find (Some (typeid T)) (componentMap e));
          [discriminate|].
        rewrite List.length_app. reflexivity.
      * destruct (ctype_eqb (Derived name) T) eqn:EU; [|discriminate].
        apply ctype_eqb_eq in EU. subst T.
        cbn [run_op insert componentMap]. unfold unordered_map.emplace.
        destruct (unordered_map.find (Some (typeid (Derived name)))
                    (componentMap e)); [discriminate|].
        rewrite List.length_app. reflexivity.
  - intros R. apply reachable_store_inv in R. destruct R as [_ Hc].
    rewrite !iterate_length. cbn [erase componentMap].
    rewrite <- (length_erase_count ti (componentMap e)). f_equal.
    unfold contains. specialize (Hc ti).
    destruct (unordered_map.find ti (componentMap e)) eqn:F; simpl.
    + destruct (unordered_map.count ti (componentMap e)) as [|[|n]] eqn:C;
        try lia.
      apply find_none_count in C. congruence.
    + now apply find_none_count in F.
Qed.

Lemma size_after_operation_witness :
  inserted Velocity (OpEmplace Velocity 6%positive) = Some (Some 6%positive) /\
  List.length (iterate (run_op (OpEmplace Velocity 6%positive) resting)) = 2 /\
  List.length (iterate (run_op (OpEmplace Velocity 6%positive) moving)) = 2.
Proof.
  split; [reflexivity|]. split.
  - apply (proj1 (size_after_operation Velocity (OpEmplace Velocity 6%positive)
                    (Some 6%positive) None resting) eq_refl).
  - apply (proj1 (size_after_operation Velocity (OpEmplace Velocity 6%positive)
                    (Some 6%positive) None moving) eq_refl).
Defined.

(** ** Ownership of the components *)

Lemma held_by_removed (k : type_info_ptr) (m : unordered_map.t) :
  map deleted_object (flat_map destroy (erase_removed k m))
  = flat_map (fun p => match up_get (snd p) with
                       | Some obj => [obj]
                       | None => []
                       end)
      (filter (fun p => EqualReferents (fst p) k) m).
Proof.
  unfold erase_removed. induction m as [|[k' v] m IH]; simpl; trivial.
  destruct (EqualReferents k' k); simpl; trivial.
  rewrite map_app, IH. unfold destroy.
  now destruct (up_get v).
Qed.

Lemma erase_splits (A : Type) (f : unordered_map.value_type -> list A)
    (k : type_info_ptr) (m : unordered_map.t) :
  Permutation
    (flat_map f (unordered_map.erase k m)
       ++ flat_map f (filter (fun p => EqualReferents (fst p) k) m))
    (flat_map f m).
Proof.
  induction m as [|[k' v] m IH]; simpl; [constructor|].
  destruct (EqualReferents k' k); simpl.
  - rewrite Permutation_app_swap_app. now apply Permutation_app_head.
  - rewrite <- app_assoc. now apply Permutation_app_head.
Qed.

Lemma filter_found (k : type_info_ptr) (m : unordered_map.t) :
  unordered_map.count k m <= 1 ->
  filter (fun p => EqualReferents (fst p) k) m =
  match unordered_map.find k m with
  | Some x => [x]
  | None => []
  end.
Proof.
  induction m as [|[k' v] m IH]; simpl; trivial.
  destruct (EqualReferents k' k); simpl; intros H.
  - f_equal. rewrite IH; [|lia].
    assert (C : unordered_map.count k m = 0) by lia.
    apply find_none_count in C. now rewrite C.
  - now apply IH.
Qed.

(** X13: no component is lost and none is held twice over.  For every
    operation, the objects the entity holds afterwards together with the
    objects deleted during the call are the objects it held before
    together with the one the call brought in. *)
Theorem ownership_is_conserved (o : op) (e : Entity) :
  Permutation
    (owned (run_op o e) ++ map deleted_object (deletions o e))
    (owned e ++ handed o).
Proof.
  destruct e as [m]. unfold owned, deletions.
  destruct o as [T p|name c|T|ti];
    cbn [run_op emplace insert erase erase_T componentMap handed].
  - unfold unordered_map.emplace, emplace_rejected.
    destruct (unordered_map.find (Some (typeid T)) m); simpl.
    + reflexivity.
    + rewrite flat_map_app. simpl. now rewrite !app_nil_r.
  - unfold unordered_map.emplace, emplace_rejected.
    destruct (unordered_map.find (Some (typeid (Derived name))) m);
      destruct c as [a|]; simpl; rewrite ?flat_map_app; simpl;
      rewrite ?app_nil_r; reflexivity.
  - rewrite held_by_removed, app_nil_r. apply erase_splits.
  - rewrite held_by_removed, app_nil_r. apply erase_splits.
Qed.

(** X14: every deletion uses the right type.  In a reachable state the
    deleter that runs, during an operation or when the entity itself is
    destroyed, deletes the object as the type it was inserted as. *)
Theorem deletions_are_typed (o : op) (e : Entity) :
  reachable e ->
  Forall (fun d => deleted_as d = fst (deleted_object d)) (deletions o e) /\
  Forall (fun d => deleted_as d = fst (deleted_object d)) (Entity_dtor e).
Proof.
  intros R. apply reachable_store_inv in R. destruct R as [Hk _].
  assert (W : forall l : unordered_map.t,
             Forall well_keyed l ->
             Forall (fun d => deleted_as d = fst (deleted_object d))
               (flat_map destroy (map snd l))).
  { induction 1 as [|x l (T & c & ->) _ IH]; simpl; [constructor|].
    apply Forall_app. split; trivial.
    unfold destroy. destruct c; simpl; repeat constructor. }
  assert (M : forall T c,
             Forall (fun d => deleted_as d = fst (deleted_object d))
               (flat_map destroy [MakeComponentPtr T c])).
  { intros T c. unfold destroy. destruct c; simpl; repeat constructor. }
  split; [|now apply W].
  unfold deletions, emplace_rejected, erase_removed.
  destruct o as [T p|name c|T|ti].
  - destruct (unordered_map.find _ _); [apply M|constructor].
  - destruct (unordered_map.find _ _); [apply M|constructor].
  - apply W. now apply incl_Forall with (2 := Hk), incl_filter.
  - apply W. now apply incl_Forall with (2 := Hk), incl_filter.
Qed.

Lemma deletions_are_typed_witness :
  reachable moving /\
  deletions (OpEraseT Velocity) moving
  = [{| deleted_as := Velocity; deleted_object := (Velocity, 2%positive) |}] /\
  Forall (fun d => deleted_as d = fst (deleted_object d))
    (deletions (OpEraseT Velocity) moving).
Proof.
  assert (R : reachable moving).
  { apply (reachable_op (OpEmplace Velocity 2%positive)).
    apply (reachable_op (OpEmplace Position 1%positive)).
    apply reachable_new. }
  split; [exact R|]. split; [reflexivity|].
  apply (proj1 (deletions_are_typed (OpEraseT Velocity) moving R)).
Defined.

(** X15: an insertion that finds the type present deletes what it was
    given.  With a [T] in the entity, [emplace<T>] deletes the object it
    has just allocated and [insert<T>(c)] deletes [*c], each exactly
    once, and the store is as before; with no [T] in the entity nothing
    is deleted and the object is held by the entity afterwards. *)
Theorem rejected_insertion_deletes_its_argument
    (T : ctype) (o : op) (a : address) (e : Entity) :
  inserted T o = Some (Some a) ->
  (contains_T T e = true ->
   deletions o e = [{| deleted_as := T; deleted_object := (T, a) |}] /\
   run_op o e = e) /\
  (contains_T T e = false ->
   deletions o e = [] /\ In (T, a) (owned (run_op o e))).
Proof.
  intros Hi.
  assert (D : deletions o e =
              if contains_T T e
              then [{| deleted_as := T; deleted_object := (T, a) |}]
              else []).
  { rewrite contains_entry. unfold entry, deletions, emplace_rejected.
    destruct o as [U p|name c|U|ti]; cbn [inserted] in Hi; try discriminate.
    - destruct (ctype_eqb U T) eqn:EU; [|discriminate].
      apply ctype_eqb_eq in EU. subst U. injection Hi as ->.
      now destruct (unordered_map.find _ _).
    - destruct (ctype_eqb (Derived name) T) eqn:EU; [|discriminate].
      apply ctype_eqb_eq in EU. subst T. injection Hi as ->.
      now destruct (unordered_map.find _ _). }
  split; intros Hc; rewrite D, Hc; split; trivial.
  - now apply (insertion_on_present T o (Some a)).
  - pose proof (insertion_on_absent T o (Some a) e Hi Hc) as E.
    unfold entry in E. apply find_key in E. destruct E as [Hin _].
    unfold owned. apply in_flat_map.
    exists (Some (typeid T), MakeComponentPtr T (Some a)). split; trivial.
    now left.
Qed.

Lemma rejected_insertion_deletes_its_argument_witness :
  inserted Position (OpInsert "Position" (Some 9%positive))
  = Some (Some 9%positive) /\
  contains_T Position resting = true /\
  deletions (OpInsert "Position" (Some 9%positive)) resting
  = [{| deleted_as := Position; deleted_object := (Position, 9%positive) |}] /\
  run_op (OpInsert "Position" (Some 9%positive)) resting = resting.
Proof.
  split; [reflexivity|]. split; [reflexivity|].
  apply (proj1 (rejected_insertion_deletes_its_argument Position
                  (OpInsert "Position" (Some 9%positive)) 9%positive resting
                  eq_refl) eq_refl).
Defined.

(** X16: [erase] deletes what [get] showed.  In a reachable state the
    objects deleted by an [erase] are exactly the object that [get] gave
    for that identity just before, if it gave one, and nothing if [get]
    gave null. *)
Theorem erase_deletes_the_stored_component (ti : type_info_ptr) (e : Entity) :
  reachable e ->
  map deleted_object (deletions (OpErase ti) e)
  = match get ti e with
    | Some obj => [obj]
    | None => []
    end.
Proof.
  intros R. apply reachable_store_inv in R. destruct R as [_ Hc].
  unfold deletions. rewrite held_by_removed, (filter_found ti _ (Hc ti)).
  unfold get.
  destruct (unordered_map.find ti (componentMap e)) as [[k v]|]; simpl;
    trivial.
  now rewrite app_nil_r.
Qed.

Lemma erase_deletes_the_stored_component_witness :
  reachable moving /\
  map deleted_object (deletions (OpErase (Some (typeid Position))) moving)
  = [(Position, 1%positive)].
Proof.
  assert (R : reachable moving).
  { apply (reachable_op (OpEmplace Velocity 2%positive)).
    apply (reachable_op (OpEmplace Position 1%positive)).
    apply reachable_new. }
  split; [exact R|].
  apply (erase_deletes_the_stored_component (Some (typeid Position)) moving R).
Defined.

(** ** The filter of a system *)

Lemma all_of_ext_in {A : Type} (l l' : list A) (p p' : A -> bool) :
  (forall x, In x l' -> exists y, In y l /\ p y = p' x) ->
  all_of l p = true -> all_of l' p' = true.
Proof.
  intros H Hl. apply all_of_spec. intros x Hx.
  destruct (H x Hx) as (y & Hy & <-).
  now apply (proj1 (all_of_spec l p) Hl).
Qed.

Lemma contains_run_op_other (o : op) (ti : type_info_ptr) (e : Entity) :
  key_type ti <> touched o -> contains ti (run_op o e) = contains ti e.
Proof.
  intros H. unfold contains. rewrite find_run_op.
  destruct o as [T p|name c|T|t]; cbn [touched] in H;
    destruct (unordered_map.find ti (componentMap e)); key_cases;
    cbn [key_type option_map typeid ti_type] in *;
    try reflexivity; congruence.
Qed.

(** X17: only the set of required identities matters.  Two system
    objects whose [componentTypes] hold the same identities, in whatever
    order and however often, let the same entities through. *)
Theorem filter_ignores_order (D : Type) (s s' : System D) (e : Entity) :
  (forall ti, In ti (componentTypes s) <-> In ti (componentTypes s')) ->
  passes s e = passes s' e.
Proof.
  intros H. unfold passes.
  set (p := fun type : type_info_ptr => contains type e).
  destruct (all_of (componentTypes s) p) eqn:E,
           (all_of (componentTypes s') p) eqn:E'; trivial.
  - rewrite <- E'. symmetry.
    apply (all_of_ext_in (componentTypes s) (componentTypes s') p p);
      trivial.
    intros x Hx. exists x. split; [now apply H | reflexivity].
  - rewrite <- E.
    apply (all_of_ext_in (componentTypes s') (componentTypes s) p p);
      trivial.
    intros x Hx. exists x. split; [now apply H | reflexivity].
Qed.

Lemma filter_ignores_order_witness :
  let s := System_ctor [Position; Velocity] 0 in
  let s' := System_ctor [Velocity; Position; Velocity] 5 in
  (forall ti, In ti (componentTypes s) <-> In ti (componentTypes s')) /\
  passes s moving = passes s' moving.
Proof.
  intros s s'.
  assert (H : forall ti, In ti (componentTypes s) <-> In ti (componentTypes s')).
  { intros ti. simpl. tauto. }
  split; [exact H|].
  apply (filter_ignores_order nat s s' moving H).
Defined.

(** X18: erasing a required component stops the system.  After an
    [erase] by an identity equivalent to one of the required ones, the
    filter fails and [process] leaves entity and system as they are. *)
Theorem erased_requirement_skips (D : Type)
    (logic : Entity -> System D -> Entity * System D)
    (ti ti' : type_info_ptr) (e : Entity) (w : world D) :
  In ti' (componentTypes (this w)) ->
  EqualReferents ti ti' = true ->
  passes (this w) (erase ti e) = false /\
  process logic (erase ti e) w = (erase ti e, w).
Proof.
  intros Hin He.
  assert (P : passes (this w) (erase ti e) = false).
  { apply all_of_false. exists ti'. split; trivial.
    unfold contains, erase. cbn [componentMap].
    now rewrite find_erase, He. }
  split; [exact P|]. now apply process_skips.
Qed.

Lemma erased_requirement_skips_witness :
  In (Some (typeid Velocity)) (componentTypes stop_system) /\
  passes stop_system moving = true /\
  process stop_logic (erase_T Velocity moving) (mk_world stop_system [])
  = (erase_T Velocity moving, mk_world stop_system []).
Proof.
  assert (H : In (Some (typeid Velocity)) (componentTypes stop_system)).
  { right. now left. }
  split; [exact H|]. split; [reflexivity|].
  apply (proj2 (erased_requirement_skips nat stop_logic
                  (Some (typeid Velocity)) (Some (typeid Velocity)) moving
                  (mk_world stop_system []) H eq_refl)).
Defined.

(** X19: the filter looks at the required types only.  An operation on
    a type that is not required leaves the outcome of the filter as it
    was; and an insertion, on whatever type, never turns an entity that
    passes into one that fails. *)
Theorem filter_frame (D : Type) (s : System D)
    (T : ctype) (o : op) (c : ptr) (e : Entity) :
  ((forall ti, In ti (componentTypes s) -> key_type ti <> touched o) ->
   passes s (run_op o e) = passes s e) /\
  (inserted T o = Some c -> passes s e = true ->
   passes s (run_op o e) = true).
Proof.
  unfold passes. split.
  - intros H.
    destruct (all_of (componentTypes s) (fun type => contains type e)) eqn:E.
    + apply (all_of_ext_in (componentTypes s) (componentTypes s)
               (fun type => contains type e)
               (fun type => contains type (run_op o e))); trivial.
      intros x Hx. exists x. split; trivial.
      symmetry. apply contains_run_op_other. now apply H.
    + apply all_of_false in E. destruct E as (x & Hx & Hc).
      apply all_of_false. exists x. split; trivial.
      rewrite contains_run_op_other; trivial. now apply H.
  - intros Hi P. apply all_of_spec. intros x Hx.
    pose proof (proj1 (all_of_spec _ _) P x Hx) as Hc. cbv beta in Hc.
    unfold contains in *. rewrite find_run_op.
    destruct (unordered_map.find x (componentMap e)); [|discriminate].
    destruct o; cbn [inserted] in Hi; try discriminate; reflexivity.
Qed.

Lemma filter_frame_witness :
  (forall ti, In ti (componentTypes stop_system) ->
              key_type ti <> touched (OpEraseT (Derived "Health"))) /\
  passes stop_system (run_op (OpEraseT (Derived "Health")) moving)
  = passes stop_system moving.
Proof.
  assert (H : forall ti, In ti (componentTypes stop_system) ->
                         key_type ti <> touched (OpEraseT (Derived "Health"))).
  { intros ti [<-|[<-|[]]]; discriminate. }
  split; [exact H|].
  apply (proj1 (filter_frame nat stop_system Position
                  (OpEraseT (Derived "Health")) None moving) H).
Defined.

(** X20: a null identity among the required ones shuts the system.
    [componentTypes] is a public member; if it holds a null pointer, no
    reachable entity passes the filter, and [process] does nothing. *)
Theorem null_requirement_never_passes (D : Type)
    (logic : Entity -> System D -> Entity * System D)
    (e : Entity) (w : world D) :
  In None (componentTypes (this w)) ->
  reachable e ->
  passes (this w) e = false /\ process logic e w = (e, w).
Proof.
  intros Hin R. apply reachable_store_inv in R. destruct R as [Hk _].
  assert (P : passes (this w) e = false).
  { apply all_of_false. exists None. split; trivial.
    unfold contains. now rewrite (well_keyed_find_null _ Hk). }
  split; [exact P|]. now apply process_skips.
Qed.

Lemma null_requirement_never_passes_witness :
  let w := mk_world (mk_System [Some (typeid Position); None] 0) [] in
  In None (componentTypes (this w)) /\
  reachable moving /\
  process stop_logic moving w = (moving, w).
Proof.
  intros w.
  assert (R : reachable moving).
  { apply (reachable_op (OpEmplace Velocity 2%positive)).
    apply (reachable_op (OpEmplace Position 1%positive)).
    apply reachable_new. }
  assert (H : In None (componentTypes (this w))) by (right; now left).
  split; [exact H|]. split; [exact R|].
  apply (proj2 (null_requirement_never_passes nat stop_logic moving w H R)).
Defined.

(** ** A pass over a sequence *)

Lemma stop_logic_keeps_reachable (e : Entity) (s : System nat) :
  reachable e -> reachable (fst (stop_logic e s)).
Proof. intros R. exact (reachable_op (OpEraseT Velocity) e R). Qed.

(** X21: a pass that nobody passes changes nothing.  If every entity of
    the sequence fails the filter, [process(sequence)] returns with the
    sequence, the system object and the record of calls as they were,
    whatever [logic] is. *)
Theorem process_vec_none_pass (D : Type)
    (logic : Entity -> System D -> Entity * System D)
    (es : list Entity) (w : world D) :
  (forall e, In e es -> passes (this w) e = false) ->
  process_vec logic es w = (es, w).
Proof.
  induction es as [|e es IH]; intros H; trivial.
  rewrite process_vec_cons.
  rewrite (process_skips D logic e w (H e (or_introl eq_refl))).
  cbn [fst snd]. rewrite IH; trivial.
  intros x Hx. apply H. now right.
Qed.

Lemma process_vec_none_pass_witness :
  (forall e, In e [resting; Entity_new] -> passes stop_system e = false) /\
  process_vec stop_logic [resting; Entity_new] (mk_world stop_system [])
  = ([resting; Entity_new], mk_world stop_system []).
Proof.
  assert (H : forall e, In e [resting; Entity_new] ->
                        passes stop_system e = false).
  { intros e [<-|[<-|[]]]; reflexivity. }
  split; [exact H|].
  apply (process_vec_none_pass nat stop_logic [resting; Entity_new]
           (mk_world stop_system []) H).
Defined.

(** X22: position by position.  With a [logic] that leaves the required
    types alone, the place of an entity in the sequence holds, after
    [process(sequence)], that entity untouched if it fails the filter,
    and otherwise the entity that [logic] returns when applied to it and
    to the system object as the pass over the entities in front of it
    has left it. *)
Theorem process_vec_pointwise (D : Type)
    (logic : Entity -> System D -> Entity * System D)
    (es1 es2 : list Entity) (e : Entity) (w : world D) :
  keeps_types logic ->
  nth_error (fst (process_vec logic (es1 ++ e :: es2) w)) (List.length es1)
  = Some (if passes (this w) e
          then fst (logic e (this (snd (process_vec logic es1 w))))
          else e).
Proof.
  intros K. rewrite process_vec_app, process_vec_cons. cbn [fst].
  rewrite nth_error_app2; rewrite process_vec_length; [|lia].
  rewrite Nat.sub_diag. cbn [nth_error]. f_equal.
  rewrite process_cases.
  rewrite (passes_same_types D (this (snd (process_vec logic es1 w)))
             (this w) e (process_vec_keeps_types D logic es1 w K)).
  now destruct (passes (this w) e).
Qed.

Lemma process_vec_pointwise_witness :
  keeps_types later_stop_logic /\
  nth_error
    (fst (process_vec later_stop_logic ([moving; resting] ++ moving :: [])
            (mk_world stop_system []))) 2
  = Some (erase_T Velocity moving) /\
  nth_error
    (fst (process_vec later_stop_logic ([resting; resting] ++ moving :: [])
            (mk_world stop_system []))) 2
  = Some moving.
Proof.
  assert (K : keeps_types later_stop_logic).
  { intros x s. reflexivity. }
  split; [exact K|]. split.
  - exact (process_vec_pointwise nat later_stop_logic [moving; resting] []
             moving (mk_world stop_system []) K).
  - exact (process_vec_pointwise nat later_stop_logic [resting; resting] []
             moving (mk_world stop_system []) K).
Defined.

(** X23: systems keep entities reachable.  If [logic] takes reachable
    entities to reachable ones (as it does when it changes them through
    the public operations), then so does a pass over a sequence; what
    holds of reachable entities holds after any number of passes. *)
Theorem process_vec_keeps_reachable (D : Type)
    (logic : Entity -> System D -> Entity * System D)
    (es : list Entity) (w : world D) :
  (forall e s, reachable e -> reachable (fst (logic e s))) ->
  Forall reachable es ->
  Forall reachable (fst (process_vec logic es w)).
Proof.
  intros L H. revert w. induction H as [|e es He Hes IH]; intros w.
  - constructor.
  - rewrite process_vec_cons. cbn [fst]. constructor; [|apply IH].
    destruct (passes (this w) e) eqn:P.
    + rewrite (process_passes D logic e w P). unfold call_logic.
      specialize (L e (this w) He).
      now destruct (logic e (this w)).
    + now rewrite (process_skips D logic e w P).
Qed.

Lemma process_vec_keeps_reachable_witness :
  (forall e s, reachable e -> reachable (fst (stop_logic e s))) /\
  Forall reachable [moving; resting] /\
  Forall reachable
    (fst (process_vec stop_logic [moving; resting] (mk_world stop_system []))).
Proof.
  assert (R1 : reachable moving).
  { apply (reachable_op (OpEmplace Velocity 2%positive)).
    apply (reachable_op (OpEmplace Position 1%positive)).
    apply reachable_new. }
  assert (R2 : reachable resting).
  { apply (reachable_op (OpEmplace Position 3%positive)), reachable_new. }
  assert (F : Forall reachable [moving; resting]).
  { repeat constructor; assumption. }
  split; [exact stop_logic_keeps_reachable|]. split; [exact F|].
  apply (process_vec_keeps_reachable nat stop_logic [moving; resting]
           (mk_world stop_system []) stop_logic_keeps_reachable F).
Defined.
